(** * uplive-video-translator: the subtitle and audio-sequencing core

    A shallow embedding of [src/transcription.py], [src/gemini_client.py],
    [src/pipeline.py], [src/tts.py], [src/config.py] and [main.py], the
    properties of the design document checked against it, and further
    properties read off the code.

    Conventions of the embedding:
    - a Python [int] is a [Z];
    - a Python [float] is a primitive binary64 [float]; the operators
      [+ - * /] and the comparisons are the IEEE ones of [PrimFloat];
    - a Python [str] is a [string], each character a code point below 256;
    - a call that raises is [None] in the [option] monad;
    - the [segments] list of the pipeline is a [list SubtitleSegment]; a stage
      that assigns to a field of the segments returns the updated records;
    - the files written are a finite map from paths to contents. *)

From Stdlib Require Import ZArith List String Ascii Bool Lia.
From Stdlib Require Import Floats DecimalString Sorted.
From Stdlib Require Import DecimalPos DecimalN DecimalZ.
From stdpp Require Import base option list gmap strings.

Set Warnings "-inexact-float".

Local Open Scope string_scope.
Local Open Scope Z_scope.

(** ** Python numbers *)

Module Py.

(** [float(z)], and the conversion of the [int] operand of a mixed
    [int]/[float] operation: the nearest binary64 value, ties to even.
    (Python raises [OverflowError] from [2^1024] on, far above every length,
    position and frame rate met here.) *)
Definition float_of_int (z : Z) : float :=
  SF2Prim (binary_normalize prec emax z 0 false).

(** The integer part of [m * 2^e], for a positive mantissa [m]. *)
Definition trunc_shift (m : positive) (e : Z) : Z :=
  if 0 <=? e then Z.shiftl (Zpos m) e else Z.shiftr (Zpos m) (- e).

(** [m * 2^e] rounded to the nearest integer, ties to even. *)
Definition round_shift (m : positive) (e : Z) : Z :=
  if 0 <=? e then Z.shiftl (Zpos m) e
  else
    let q := Z.shiftr (Zpos m) (- e) in
    let r := Zpos m - Z.shiftl q (- e) in
    let half := Z.shiftl 1 (- e - 1) in
    match r ?= half with
    | Lt => q
    | Gt => q + 1
    | Eq => if Z.even q then q else q + 1
    end.

(** [int(x)] for a float: truncation towards zero; [ValueError] on a NaN and
    [OverflowError] on an infinity. *)
Definition int_of_float (x : float) : option Z :=
  match Prim2SF x with
  | S754_zero _ => Some 0
  | S754_finite s m e => Some (cond_Zopp s (trunc_shift m e))
  | S754_infinity _ | S754_nan => None
  end.

(** [round(x)] with one argument: the nearest [int], ties to even, with the
    same two errors. *)
Definition round (x : float) : option Z :=
  match Prim2SF x with
  | S754_zero _ => Some 0
  | S754_finite s m e => Some (cond_Zopp s (round_shift m e))
  | S754_infinity _ | S754_nan => None
  end.

(** [divmod(a, b)] on [int]s: floor division, the remainder has the sign of
    [b], which is what [Z.div] and [Z.modulo] compute. *)
Definition divmod (a b : Z) : Z * Z := (a / b, a mod b).

End Py.

(** ** Python strings *)

Module PyStr.

Definition code (c : ascii) : N := N_of_ascii c.

(** [c.isspace()] on the code points below 256. *)
Definition isspace (c : ascii) : bool :=
  let n := code c in
  ((9 <=? n) && (n <=? 13) || (28 <=? n) && (n <=? 32) || (n =? 133) || (n =? 160))%N.

(** The ten ASCII digits: the class [\d] of [re] below 256, and membership
    in the literal ["0123456789"]. *)
Definition is_ascii_digit (c : ascii) : bool :=
  let n := code c in ((48 <=? n) && (n <=? 57))%N.

(** [c.isdigit()]: below 256 it also holds of the superscripts two, three
    and one (178, 179, 185). *)
Definition isdigit (c : ascii) : bool :=
  let n := code c in
  (is_ascii_digit c || (n =? 178) || (n =? 179) || (n =? 185))%N.

(** A line boundary of [str.splitlines]. *)
Definition is_linebreak (c : ascii) : bool :=
  let n := code c in
  ((10 <=? n) && (n <=? 13) || (28 <=? n) && (n <=? 30) || (n =? 133))%N.

Definition is_empty (s : string) : bool :=
  match s with EmptyString => true | String _ _ => false end.

Fixpoint lstrip (s : string) : string :=
  match s with
  | EmptyString => EmptyString
  | String c s' => if isspace c then lstrip s' else s
  end.

Fixpoint rstrip (s : string) : string :=
  match s with
  | EmptyString => EmptyString
  | String c s' =>
      match rstrip s' with
      | EmptyString => if isspace c then EmptyString else String c EmptyString
      | r => String c r
      end
  end.

(** [s.strip()] *)
Definition strip (s : string) : string := rstrip (lstrip s).

(** [s.splitlines()]: [cur] is the line being read; a carriage return
    followed by a line feed is one boundary; no empty last line. *)
Fixpoint splitlines_from (cur s : string) : list string :=
  match s with
  | EmptyString => if is_empty cur then [] else [cur]
  | String c s' =>
      if is_linebreak c then
        match s' with
        | String c' s'' =>
            if ((code c =? 13) && (code c' =? 10))%N
            then cur :: splitlines_from EmptyString s''
            else cur :: splitlines_from EmptyString s'
        | EmptyString => [cur]
        end
      else splitlines_from (cur ++ String c EmptyString) s'
  end.

Definition splitlines (s : string) : list string := splitlines_from EmptyString s.

(** [c in s] for a one-character [c]. *)
Fixpoint contains (c : ascii) (s : string) : bool :=
  match s with
  | EmptyString => false
  | String d s' => if Ascii.eqb c d then true else contains c s'
  end.

(** [s.split(c, 1)]: cut at the first [c], which is dropped; one part when
    [c] does not occur. *)
Fixpoint split_once (c : ascii) (s : string) : list string :=
  match s with
  | EmptyString => [EmptyString]
  | String d s' =>
      if Ascii.eqb c d then [EmptyString; s']
      else match split_once c s' with
           | [] => []
           | p :: ps => String d p :: ps
           end
  end.

(** [s[0].isdigit()] on a string known to be non-empty ([IndexError] on the
    empty string never arises: the callers test emptiness first). *)
Definition starts_with_digit (s : string) : bool :=
  match s with
  | EmptyString => false
  | String c _ => isdigit c
  end.

(** [any(c in s for c in "0123456789")] *)
Fixpoint has_ascii_digit (s : string) : bool :=
  match s with
  | EmptyString => false
  | String c s' => if is_ascii_digit c then true else has_ascii_digit s'
  end.

(** [sep.join(l)] *)
Definition join (sep : string) (l : list string) : string := String.concat sep l.

(** [str(z)] for an [int]. *)
Definition str_of_int (z : Z) : string := NilZero.string_of_int (Z.to_int z).

(** The decimal digits of a natural number, as [str] writes them. *)
Definition digits (n : N) : string := NilZero.string_of_uint (N.to_uint n).

(** [k] zeros. *)
Fixpoint zeros (k : nat) : string :=
  match k with O => EmptyString | S k' => String "0" (zeros k') end.

(** [format(z, "0<w>d")], the [{z:0<w>d}] of an f-string: the digits padded
    with zeros on the left to [w] characters, the sign counted in. *)
Definition format_0d (w : nat) (z : Z) : string :=
  let d := digits (Z.abs_N z) in
  if z <? 0
  then String "-" (zeros (w - 1 - String.length d) ++ d)
  else zeros (w - String.length d) ++ d.

End PyStr.

(** ** src/transcription.py *)

Module transcription.
Import PyStr.

(** The dataclass [SubtitleSegment]; [None] is the default of the last three
    fields. *)
Record SubtitleSegment := {
  index : Z;
  start : float;
  end_ : float;
  text : string;
  translated_text : option string;
  actual_start : option float;
  actual_end : option float
}.

(** The segment [transcribe_audio] builds for the [i]-th Whisper result. *)
Definition transcribed (i : Z) (s e : float) (t : string) : SubtitleSegment :=
  {| index := i; start := s; end_ := e; text := strip t;
     translated_text := None; actual_start := None; actual_end := None |}.

(** The f-string of [format_timestamp], on the millisecond count. *)
Definition format_millis (millis : Z) : string :=
  let '(hours, rem) := Py.divmod millis 3600000 in
  let '(minutes, rem) := Py.divmod rem 60000 in
  let '(secs, millis) := Py.divmod rem 1000 in
  format_0d 2 hours ++ ":" ++ format_0d 2 minutes ++ ":" ++ format_0d 2 secs
    ++ "," ++ format_0d 3 millis.

Definition format_timestamp (seconds : float) : option string :=
  millis ← Py.round (seconds * Py.float_of_int 1000)%float;
  Some (format_millis millis).

(** [seg.translated_text if use_translated and seg.translated_text else
    seg.text]: [None] and the empty string are both false. *)
Definition selected_text (use_translated : bool) (seg : SubtitleSegment) : string :=
  match translated_text seg with
  | Some t => if use_translated && negb (is_empty t) then t else text seg
  | None => text seg
  end.

(** The timing line of a block. *)
Definition arrow (a b : string) : string := a ++ " --> " ++ b.

Definition timing_line (use_actual_timing : bool) (seg : SubtitleSegment)
  : option string :=
  match use_actual_timing, actual_start seg, actual_end seg with
  | true, Some a, Some b =>
      x ← format_timestamp a; y ← format_timestamp b; Some (arrow x y)
  | _, _, _ =>
      x ← format_timestamp (start seg); y ← format_timestamp (end_ seg);
      Some (arrow x y)
  end.

(** The loop of [write_srt]: [lines] is the list being appended to. *)
Fixpoint write_srt_loop (use_translated use_actual_timing : bool)
    (segments : list SubtitleSegment) (lines : list string)
  : option (list string) :=
  match segments with
  | [] => Some lines
  | seg :: rest =>
      let text := selected_text use_translated seg in
      if is_empty text
      then write_srt_loop use_translated use_actual_timing rest lines
      else
        t ← timing_line use_actual_timing seg;
        write_srt_loop use_translated use_actual_timing rest
          (lines ++ [str_of_int (index seg); t; strip text; ""])
  end.

Definition newline : string := String (ascii_of_nat 10) EmptyString.

(** [write_srt]: the file at [path] is replaced by the joined lines; nothing
    is written when a timestamp cannot be rendered. *)
Definition write_srt (segments : list SubtitleSegment) (path : string)
    (use_translated use_actual_timing : bool) (fs : gmap string string)
  : option (gmap string string) :=
  lines ← write_srt_loop use_translated use_actual_timing segments [];
  Some (<[path := join newline lines]> fs).

(** One entry of [result["segments"]] as Whisper returns it: the values
    under ["start"], ["end"] and ["text"]. *)
Record WhisperSegment := {
  w_start : float;
  w_end : float;
  w_text : string
}.

(** The loop of [transcribe_audio] over [enumerate(..., start=i)]. *)
Fixpoint transcribe_from (i : Z) (entries : list WhisperSegment)
  : list SubtitleSegment :=
  match entries with
  | [] => []
  | seg :: rest =>
      transcribed i (w_start seg) (w_end seg) (w_text seg)
        :: transcribe_from (i + 1) rest
  end.

(** [transcribe_audio] from the result of the model on: [result_segments]
    is [result.get("segments")], [None] when the key is missing. *)
Definition transcribe_audio (result_segments : option (list WhisperSegment))
  : list SubtitleSegment :=
  transcribe_from 1 (default [] result_segments).

End transcription.

(** ** src/gemini_client.py *)

Module gemini_client.
Import PyStr.

Definition dot : ascii := "."%char.
Definition paren : ascii := ")"%char.

(** One line of the first parsing loop of [translate_lines]: what is appended
    to [translated] for a non-empty stripped [raw_line]. *)
Definition parse_line (raw_line : string) : string :=
  if contains dot raw_line && starts_with_digit raw_line then
    match split_once dot raw_line with
    | [_; after] => strip after
    | _ => raw_line
    end
  else if contains paren raw_line && starts_with_digit raw_line then
    match split_once paren raw_line with
    | [_; after] => strip after
    | _ => raw_line
    end
  else raw_line.

(** The first parsing loop, over the lines of the response. *)
Fixpoint parse_lines (raw_lines : list string) : list string :=
  match raw_lines with
  | [] => []
  | raw_line :: rest =>
      let raw_line := strip raw_line in
      if is_empty raw_line then parse_lines rest
      else parse_line raw_line :: parse_lines rest
  end.

(** *** The regular expression [^\d+[\.\)]\s*(.+)] under [re.match] *)

(** The longest prefix without a line feed: what a greedy [.+] takes. *)
Fixpoint take_dots (s : string) : string :=
  match s with
  | EmptyString => EmptyString
  | String c s' => if (code c =? 10)%N then EmptyString else String c (take_dots s')
  end.

(** [\s*(.+)] against [s]: the group. [\s*] is greedy and gives characters
    back until [.+] can take one. *)
Fixpoint spaces_then_group (s : string) : option string :=
  match s with
  | EmptyString => None
  | String c s' =>
      if isspace c then
        match spaces_then_group s' with
        | Some g => Some g
        | None => if (code c =? 10)%N then None else Some (take_dots s)
        end
      else Some (take_dots s)
  end.

(** After at least one digit: more digits, then the marker character. *)
Fixpoint digits_then_marker (s : string) : option string :=
  match s with
  | EmptyString => None
  | String c s' =>
      if is_ascii_digit c then digits_then_marker s'
      else if Ascii.eqb c dot || Ascii.eqb c paren then spaces_then_group s'
      else None
  end.

(** [match.group(1)] when [re.match] succeeds on [line]. *)
Definition match_numbered (line : string) : option string :=
  match line with
  | EmptyString => None
  | String c s' => if is_ascii_digit c then digits_then_marker s' else None
  end.

(** The second, lenient loop: what one line adds to [fallback_translated]. *)
Definition recover_line (line : string) : list string :=
  if negb (is_empty line) && negb (starts_with_digit line) then []
  else
    match match_numbered line with
    | Some g => [strip g]
    | None =>
        if negb (is_empty line) && negb (has_ascii_digit line) then [line] else []
    end.

Fixpoint recover_lines (raw_lines : list string) : list string :=
  match raw_lines with
  | [] => []
  | line :: rest => recover_line (strip line) ++ recover_lines rest
  end.

(** [[t for t in translated if t]] *)
Definition non_empty (l : list string) : list string :=
  List.filter (fun t => negb (is_empty t)) l.

(** [translate_lines] from the backend's answer on: [lines] are the input
    lines and [response_text] is [response.text]. *)
Definition translate_lines (lines : list string) (response_text : string)
  : list string :=
  match lines with
  | [] => []
  | _ =>
      let text := strip response_text in
      let translated := parse_lines (splitlines text) in
      if negb (Nat.eqb (List.length translated) (List.length lines)) then
        let fallback_translated := recover_lines (splitlines text) in
        if Nat.eqb (List.length fallback_translated) (List.length lines)
        then fallback_translated
        else
          match non_empty translated with
          | [] => splitlines text
          | kept => kept
          end
      else translated
  end.

(** The numbered lines of the prompt:
    ["\n".join(f"{idx+1}. {line}" for idx, line in enumerate(lines))]. *)
Fixpoint numbered_from (idx : Z) (lines : list string) : list string :=
  match lines with
  | [] => []
  | line :: rest =>
      (str_of_int (idx + 1) ++ ". " ++ line)%string :: numbered_from (idx + 1) rest
  end.

Definition numbered (lines : list string) : string :=
  join transcription.newline (numbered_from 0 lines).

End gemini_client.

(** ** src/pipeline.py, the translation stage *)

Module pipeline.
Import transcription.

Definition set_translated_text (seg : SubtitleSegment) (translated : string)
  : SubtitleSegment :=
  {| index := index seg; start := start seg; end_ := end_ seg; text := text seg;
     translated_text := Some translated;
     actual_start := actual_start seg; actual_end := actual_end seg |}.

(** [for seg, translated in zip(segments, translated_lines):
       seg.translated_text = translated]
    The loop stops with the shorter list; the segments it does not reach
    stay as they were. *)
Fixpoint assign_translations (segments : list SubtitleSegment)
    (translated_lines : list string) : list SubtitleSegment :=
  match segments, translated_lines with
  | seg :: segs, translated :: rest =>
      set_translated_text seg translated :: assign_translations segs rest
  | _, _ => segments
  end.

(** Step 3 of [run]: the texts go to the backend, whose answer is
    [response_text], and the translations are stored. *)
Definition translate_stage (segments : list SubtitleSegment)
    (response_text : string) : list SubtitleSegment :=
  let lines := List.map text segments in
  let translated_lines := gemini_client.translate_lines lines response_text in
  assign_translations segments translated_lines.

(** [x or y] on strings, [x] optional. *)
Definition or_else (x : option string) (y : string) : string :=
  match x with
  | Some s => if PyStr.is_empty s then y else s
  | None => y
  end.

(** [normalized_lang = target_language or self._config.target_language] *)
Definition normalized_lang (target_language : option string)
    (config_language : string) : string :=
  or_else target_language config_language.

(** [language_code = normalized_lang.split("-", 1)[0]] *)
Definition language_code (normalized_lang : string) : string :=
  match PyStr.split_once "-" normalized_lang with
  | code :: _ => code
  | [] => EmptyString
  end.

(** [lang_suffix = f"_{language_code}" if normalized_lang else ""] *)
Definition lang_suffix (normalized_lang : string) : string :=
  if PyStr.is_empty normalized_lang then EmptyString
  else ("_" ++ language_code normalized_lang)%string.

End pipeline.

(** ** src/tts.py *)

Module tts.
Import PyStr transcription.

(** What [tts.py] uses of pydub's [AudioSegment]: [len(a)] in milliseconds,
    [a.frame_rate], [a._spawn(a.raw_data, overrides={"frame_rate": r})],
    [a.set_frame_rate(r)], [a + b] and [AudioSegment.silent(duration=d)]. *)
Class AudioOps (A : Type) := {
  len : A -> Z;
  frame_rate : A -> Z;
  spawn_at_frame_rate : A -> Z -> A;
  set_frame_rate : A -> Z -> A;
  add : A -> A -> A;
  silent : Z -> A
}.

(** [sorted(l, key=key)] for float keys: a stable sort that compares keys
    with [<] only. [insert_by] puts [x], which comes first in the input,
    before the first element whose key is not below its own. *)
Fixpoint insert_by {X : Type} (key : X -> float) (x : X) (l : list X) : list X :=
  match l with
  | [] => [x]
  | y :: l' =>
      if (key y <? key x)%float then y :: insert_by key x l' else x :: y :: l'
  end.

Fixpoint sorted {X : Type} (key : X -> float) (l : list X) : list X :=
  match l with
  | [] => []
  | x :: l' => insert_by key x (sorted key l')
  end.

(** The truth value of an optional string. *)
Definition truthy (o : option string) : bool :=
  match o with
  | Some s => negb (is_empty s)
  | None => false
  end.

Definition set_actual (seg : SubtitleSegment) (a b : float) : SubtitleSegment :=
  {| index := index seg; start := start seg; end_ := end_ seg; text := text seg;
     translated_text := translated_text seg;
     actual_start := Some a; actual_end := Some b |}.

Section Audio.
Context {A : Type} `{AudioOps A}.

(** The two bounds of the ratio: [1.0 + max_change] and [1.0 - max_change]. *)
Definition max_change : float := 0.25%float.
Definition upper_ratio : float := (1.0 + max_change)%float.
Definition lower_ratio : float := (1.0 - max_change)%float.

Definition clamp_ratio (ratio : float) : float :=
  if (upper_ratio <? ratio)%float then upper_ratio
  else if (ratio <? lower_ratio)%float then lower_ratio
  else ratio.

Definition duration_ratio (piece : A) (target_ms : Z) : float :=
  (Py.float_of_int (len piece) / Py.float_of_int target_ms)%float.

Definition close_enough (ratio : float) : bool :=
  (abs (ratio - 1.0) <? 0.05)%float.

Definition _time_stretch_to_duration (piece : A) (target_ms : Z) : option A :=
  if (target_ms <=? 0) || (len piece =? 0) then Some piece
  else
    let ratio := duration_ratio piece target_ms in
    if close_enough ratio then Some piece
    else
      let ratio := clamp_ratio ratio in
      new_frame_rate ←
        Py.int_of_float (Py.float_of_int (frame_rate piece) * ratio)%float;
      if new_frame_rate <=? 0 then Some piece
      else
        let stretched := spawn_at_frame_rate piece new_frame_rate in
        Some (set_frame_rate stretched (frame_rate piece)).

(** [[s for s in segments if s.translated_text]] sorted by [start]: the
    segments whose synthesis is submitted. *)
Definition ordered_segments (segments : list SubtitleSegment)
  : list SubtitleSegment :=
  sorted start (List.filter (fun s => truthy (translated_text s)) segments).

(** The clip of one piece as it is appended: stretched towards the nominal
    span of its segment when that span is positive. *)
Definition adjust (seg : SubtitleSegment) (piece : A) : option A :=
  seg_duration_ms ←
    Py.int_of_float ((end_ seg - start seg) * Py.float_of_int 1000)%float;
  if 0 <? seg_duration_ms
  then _time_stretch_to_duration piece seg_duration_ms
  else Some piece.

Definition seconds (ms : Z) : float := (Py.float_of_int ms / 1000.0)%float.

(** The loop over [pieces_sorted]: [current_pos_ms] and [audio_segments] are
    the two variables it updates; the result lists the segments in loop
    order with their new [actual_start] and [actual_end]. *)
Fixpoint arrange_loop (pieces_sorted : list (SubtitleSegment * A))
    (current_pos_ms : Z) (audio_segments : list A)
  : option (list SubtitleSegment * Z * list A) :=
  match pieces_sorted with
  | [] => Some ([], current_pos_ms, audio_segments)
  | (seg, piece) :: rest =>
      adjusted ← adjust seg piece;
      let actual_start_seconds := seconds current_pos_ms in
      let actual_duration_seconds := seconds (len adjusted) in
      let actual_end_seconds :=
        (actual_start_seconds + actual_duration_seconds)%float in
      let seg := set_actual seg actual_start_seconds actual_end_seconds in
      '(segs, pos, audio) ←
        arrange_loop rest (current_pos_ms + len adjusted)
          (audio_segments ++ [adjusted]);
      Some (seg :: segs, pos, audio)
  end.

(** [sum(audio_segments)]: [0 + a] is [a], then [+] from the left;
    [AudioSegment.silent(duration=0)] for no clip at all. *)
Definition combine (audio_segments : list A) : A :=
  match audio_segments with
  | [] => silent 0
  | a :: rest => fold_left add rest a
  end.

(** What one run of the assembly leaves behind. *)
Record Assembled := {
  sequenced : list SubtitleSegment;
  final_pos_ms : Z;
  clips : list A;
  combined : A;
  actual_total_duration_seconds : float
}.

(** Lines 92 to 128 of [synthesize_translated_audio], on the pieces in the
    order the futures completed. *)
Definition arrange (pieces : list (SubtitleSegment * A)) : option Assembled :=
  let pieces_sorted := sorted (fun sp => start (fst sp)) pieces in
  '(segs, pos, audio) ← arrange_loop pieces_sorted 0 [];
  let combined := combine audio in
  Some {| sequenced := segs; final_pos_ms := pos; clips := audio;
          combined := combined;
          actual_total_duration_seconds := seconds (len combined) |}.

(** [_synthesize_segment] is the text-to-speech backend: [synthesize seg] is
    the clip it decodes for [seg]. [as_completed] hands the futures over in
    the order they finish, so [pieces] is some permutation of the submitted
    segments with their clips. *)
Definition collected (synthesize : SubtitleSegment -> A)
    (segments : list SubtitleSegment) (pieces : list (SubtitleSegment * A)) : Prop :=
  pieces ≡ₚ List.map (fun seg => (seg, synthesize seg)) (ordered_segments segments).

(** [synthesize_translated_audio segments] may end with [out]. *)
Definition synthesize_translated_audio (synthesize : SubtitleSegment -> A)
    (segments : list SubtitleSegment) (out : Assembled) : Prop :=
  exists pieces, collected synthesize segments pieces /\ arrange pieces = Some out.

End Audio.

(** Modelled from the spec: pydub is not among the sources, so what the
    statements need of it is stated here. [len] is a duration, so it is
    not negative; appending a clip advances the track by the duration of
    the clip (4.4: "total output duration equals the sum of clip
    durations"); the silent clip of no duration has length zero. *)
Class AudioLaws (A : Type) `{AudioOps A} : Prop := {
  len_nonneg : forall a : A, 0 <= len a;
  len_add : forall a b : A, len (add a b) = len a + len b;
  len_silent_0 : len (silent 0) = 0
}.

(** *** A reference audio type *)

(** Modelled from the spec: pydub's [AudioSegment] is not among the
    sources. The design document describes a clip by its duration in
    milliseconds (4.3, 4.4), and this type does the same, with the frame
    rate [tts.py] reads. Reading the same raw data at another frame rate
    scales the duration by the quotient of the two rates, to the nearest
    millisecond ("resample the clip's playback rate ... result duration
    is therefore [D / ratio]"); restoring the frame rate keeps the
    duration; appending adds the durations; [silent] has the default
    frame rate of pydub. *)
Record Clip := { clip_ms : N; clip_rate : Z }.

(** [n / d] rounded to the nearest integer, ties to even, for [d > 0]. *)
Definition round_div (n d : Z) : Z :=
  let q := n / d in
  let r := n mod d in
  match 2 * r ?= d with
  | Lt => q
  | Gt => q + 1
  | Eq => if Z.even q then q else q + 1
  end.

#[export] Instance clip_ops : AudioOps Clip := {|
  len c := Z.of_N (clip_ms c);
  frame_rate c := clip_rate c;
  spawn_at_frame_rate c r :=
    {| clip_ms := Z.to_N (round_div (Z.of_N (clip_ms c) * clip_rate c) r);
       clip_rate := r |};
  set_frame_rate c r := {| clip_ms := clip_ms c; clip_rate := r |};
  add a b :=
    {| clip_ms := clip_ms a + clip_ms b;
       clip_rate := Z.max (clip_rate a) (clip_rate b) |};
  silent d := {| clip_ms := Z.to_N d; clip_rate := 11025 |}
|}.

(** *** The segments as shared objects *)

(** [_synthesize_segment] writes the speech to
    [output_dir / f".seg{seg.index}.mp3"] before it decodes it: the name of
    that file. *)
Definition temp_file_name (seg : SubtitleSegment) : string :=
  (".seg" ++ str_of_int (index seg) ++ ".mp3")%string.

(** [max_workers = min(8, len(ordered_segments))] *)
Definition max_workers (ordered : list SubtitleSegment) : Z :=
  Z.min 8 (Z.of_nat (List.length ordered)).

Section Store.
Context {A : Type} `{AudioOps A}.

(** The segments of the list are objects that the pieces refer to: a
    reference is a position in [segments], and an assignment to a field of
    a segment is an update of the list at that position. *)
Definition start_at (segments : list SubtitleSegment) (i : nat) : float :=
  match segments !! i with
  | Some seg => start seg
  | None => 0%float
  end.

Definition translated_at (segments : list SubtitleSegment) (i : nat) : bool :=
  match segments !! i with
  | Some seg => truthy (translated_text seg)
  | None => false
  end.

(** The references of [ordered_segments]. *)
Definition ordered_refs (segments : list SubtitleSegment) : list nat :=
  sorted (start_at segments)
    (List.filter (translated_at segments) (seq 0 (List.length segments))).

(** The loop over [pieces_sorted], with the assignments to
    [seg.actual_start] and [seg.actual_end] made in [segments]. *)
Fixpoint arrange_loop_at (pieces_sorted : list (nat * A))
    (current_pos_ms : Z) (audio_segments : list A)
    (segments : list SubtitleSegment)
  : option (list SubtitleSegment * Z * list A) :=
  match pieces_sorted with
  | [] => Some (segments, current_pos_ms, audio_segments)
  | (i, piece) :: rest =>
      seg ← segments !! i;
      adjusted ← adjust seg piece;
      let actual_start_seconds := seconds current_pos_ms in
      let actual_duration_seconds := seconds (len adjusted) in
      let actual_end_seconds :=
        (actual_start_seconds + actual_duration_seconds)%float in
      arrange_loop_at rest (current_pos_ms + len adjusted)
        (audio_segments ++ [adjusted])
        (<[i := set_actual seg actual_start_seconds actual_end_seconds]> segments)
  end.

(** The futures completed in the order of [pieces]. *)
Definition collected_at (synthesize : SubtitleSegment -> A)
    (segments : list SubtitleSegment) (pieces : list (nat * A)) : Prop :=
  pieces ≡ₚ
    omap (fun i => seg ← segments !! i; Some (i, synthesize seg))
      (ordered_refs segments).

(** [synthesize_translated_audio] on the shared segments: the segments it
    leaves, the combined track and the duration it returns. *)
Definition synthesize_at (segments : list SubtitleSegment)
    (pieces : list (nat * A))
  : option (list SubtitleSegment * A * float) :=
  let pieces_sorted := sorted (fun sp => start_at segments (fst sp)) pieces in
  '(segments', _, audio) ← arrange_loop_at pieces_sorted 0 [] segments;
  let combined := combine audio in
  Some (segments', combined, seconds (len combined)).

End Store.

End tts.

(** ** src/pipeline.py, steps 3 to 5 of [run] *)

Module pipeline_run.
Import transcription tts.

Section Run.
Context {A : Type} `{AudioOps A}.


End Run.

End pipeline_run.

(** ** src/config.py *)

Module config.

Record AppConfig := {
  gemini_api_key : string;
  gemini_model : string;
  target_language : string
}.

(** [os.getenv(name)] and [os.getenv(name, default)] on the environment. *)
Definition getenv (env : gmap string string) (name : string) : option string :=
  env !! name.

Definition getenv_or (env : gmap string string) (name fallback : string) : string :=
  default fallback (env !! name).

(** [load_config]: [None] stands for the [RuntimeError]. *)
Definition load_config (env : gmap string string) : option AppConfig :=
  match getenv env "GEMINI_API_KEY" with
  | None => None
  | Some api_key =>
      if PyStr.is_empty api_key then None
      else
        let model := getenv_or env "GEMINI_MODEL" "gemini-1.5-flash" in
        let target_language := getenv_or env "TARGET_LANGUAGE" "vi" in
        Some {| gemini_api_key := api_key; gemini_model := model;
                target_language := target_language |}
  end.

End config.

(** ** main.py *)

Module main.
Import PyStr.

(** [s.split(c)] for a one-character separator: every part, the empty ones
    too. *)
Fixpoint split (c : ascii) (s : string) : list string :=
  match s with
  | EmptyString => [EmptyString]
  | String d s' =>
      if Ascii.eqb c d then EmptyString :: split c s'
      else match split c s' with
           | [] => []
           | p :: ps => String d p :: ps
           end
  end.

(** [[code.strip() for code in parts if code.strip()]] *)
Fixpoint stripped_codes (parts : list string) : list string :=
  match parts with
  | [] => []
  | code :: rest =>
      if is_empty (strip code) then stripped_codes rest
      else strip code :: stripped_codes rest
  end.

Definition given (arg : option string) : bool :=
  match arg with
  | Some s => negb (is_empty s)
  | None => false
  end.

(** The [targets] of [main]: [None] is the target language of the
    configuration. *)
Definition targets (target_langs target_lang : option string)
  : list (option string) :=
  match target_langs with
  | Some langs =>
      if is_empty langs then
        (if given target_lang then [target_lang] else [None])
      else List.map Some (stripped_codes (split "," langs))
  | None => if given target_lang then [target_lang] else [None]
  end.

End main.

(** * Vocabulary of the statements *)

Import PyStr transcription.

(** The segments that get a block: those whose text for the mode is not
    empty. *)
Definition has_text (use_translated : bool) (seg : SubtitleSegment) : bool :=
  negb (is_empty (selected_text use_translated seg)).

Definition blocks_written (use_translated : bool) (segments : list SubtitleSegment)
  : list SubtitleSegment :=
  List.filter (has_text use_translated) segments.

(** The four lines of the block of [seg] with timing line [t]. *)
Definition block_lines (use_translated : bool) (seg : SubtitleSegment) (t : string)
  : list string :=
  [str_of_int (index seg); t; strip (selected_text use_translated seg); ""].

(** [b] is the block of [seg]. *)
Definition is_block_of (use_translated use_actual_timing : bool)
    (seg : SubtitleSegment) (b : list string) : Prop :=
  exists t, timing_line use_actual_timing seg = Some t
            /\ b = block_lines use_translated seg t.

(** Every field of [seg'] but [translated_text] is that of [seg]. *)
Definition same_but_translation (seg seg' : SubtitleSegment) : Prop :=
  index seg' = index seg /\ start seg' = start seg /\ end_ seg' = end_ seg
  /\ text seg' = text seg /\ actual_start seg' = actual_start seg
  /\ actual_end seg' = actual_end seg.

(** The character of a decimal digit. *)
Definition digit_char (d : Z) : ascii := ascii_of_N (48 + Z.to_N d).

Definition two_digits (n : Z) : string :=
  String (digit_char (n / 10)) (String (digit_char (n mod 10)) EmptyString).

Definition three_digits (n : Z) : string :=
  String (digit_char (n / 100)) (two_digits (n mod 100)).

(** [HH:MM:SS,mmm] for a millisecond count. *)
Definition hh_mm_ss_mmm (millis : Z) : string :=
  two_digits (millis / 3600000) ++ ":" ++ two_digits (millis / 60000 mod 60)
    ++ ":" ++ two_digits (millis / 1000 mod 60) ++ "," ++ three_digits (millis mod 1000).

(** The strings of the form [dd:dd:dd,ddd], [d] a decimal digit. *)
Definition is_hh_mm_ss_mmm (s : string) : bool :=
  match s with
  | String h1 (String h2 (String c1 (String m1 (String m2 (String c2
      (String s1 (String s2 (String c3 (String k1 (String k2 (String k3
        EmptyString))))))))))) =>
      forallb is_ascii_digit [h1; h2; m1; m2; s1; s2; k1; k2; k3]
      && Ascii.eqb c1 ":" && Ascii.eqb c2 ":" && Ascii.eqb c3 ","
  | _ => false
  end.

(** One hundred hours, in milliseconds. *)
Definition hundred_hours_ms : Z := 360000000.

(** *** Sample data *)

Definition scene_1 : SubtitleSegment := transcribed 1 0 2 "Hello everyone.".
Definition scene_2 : SubtitleSegment := transcribed 2 2 5 "Welcome back.".
Definition scene_3 : SubtitleSegment := transcribed 3 5 6 "Goodbye.".

(** Three segments with the spans (0,2), (2,5) and (5,6). *)
Definition scene : list SubtitleSegment := [scene_1; scene_2; scene_3].

(** An answer of the backend with two numbered lines. *)
Definition two_line_answer : string :=
  "1. Xin chao moi nguoi." ++ newline ++ "2. Chao mung tro lai.".

(** A segment without text whose times are not numbers. *)
Definition blank_segment : SubtitleSegment := transcribed 9 nan nan "".

(** The second segment once translated, before any audio is arranged. *)
Definition scene_2_translated : SubtitleSegment :=
  pipeline.set_translated_text scene_2 "Chao mung tro lai.".

(** The subtitle file of [scene] with the original text and timing. *)
Definition scene_srt : string :=
  join newline
    ["1"; "00:00:00,000 --> 00:00:02,000"; "Hello everyone."; "";
     "2"; "00:00:02,000 --> 00:00:05,000"; "Welcome back."; "";
     "3"; "00:00:05,000 --> 00:00:06,000"; "Goodbye."; ""].

(** Lines of an answer that the first parsing loop cuts at a later dot. *)
Definition counted_sentence : string := "3 cats sat. Then left".
Definition parenthesis_then_dot : string := "1) Xin chao. Tam biet".

(** An answer to three lines: one numbered line and one line without
    number or digit. *)
Definition short_answer : string := "1. Xin chao" ++ newline ++ "Tam biet".

(** *** The assembled track *)

Import tts.

Section Track.
Context {A : Type} `{AudioOps A}.

(** The sum of the lengths of a list of clips, in milliseconds. *)
Definition total_ms (l : list A) : Z := foldr (fun a s => len a + s) 0 l.

(** The position of the cursor before the [i]-th clip of [l]. *)
Definition cursor_ms (l : list A) (i : nat) : Z := total_ms (take i l).

(** The segments of the loop with the times the cursor gives them: the
    cursor starts at [pos] and moves by the length of each clip. *)
Fixpoint placed (pos : Z) (segs : list SubtitleSegment) (l : list A)
  : list SubtitleSegment :=
  match segs, l with
  | seg :: segs', a :: l' =>
      set_actual seg (seconds pos) (seconds pos + seconds (len a))%float
        :: placed (pos + len a) segs' l'
  | _, _ => []
  end.


End Track.


(** The achieved times of a segment. *)
Definition achieved (seg : SubtitleSegment) : option float * option float :=
  (actual_start seg, actual_end seg).

(** The fields a segment has from transcription and translation. *)
Definition nominal (seg : SubtitleSegment)
  : Z * float * float * string * option string :=
  (index seg, start seg, end_ seg, text seg, translated_text seg).

(** A clip of the reference type at 24 kHz, the rate of the speech
    backend. *)
Definition clip_24k (ms : N) : Clip := {| clip_ms := ms; clip_rate := 24000 |}.

Definition spoken (i : Z) (s e : float) : SubtitleSegment :=
  {| index := i; start := s; end_ := e; text := "source";
     translated_text := Some "translation";
     actual_start := None; actual_end := None |}.

(** The scenario of the design document: the spans (0,2), (2,5), (5,6) and
    clips synthesized at 2500, 2000 and 1200 ms. *)
Definition scenario_1 : SubtitleSegment := spoken 1 0 2.
Definition scenario_2 : SubtitleSegment := spoken 2 2 5.




(** Three segments of 100, 200 and 100 ms, each with a clip as long as its
    span. *)
Definition tenths_pieces : list (SubtitleSegment * Clip) :=
  [(spoken 1 0 0.1, clip_24k 100); (spoken 2 0.1 0.3, clip_24k 200);
   (spoken 3 0.3 0.4, clip_24k 100)]%float.

(** Two segments with the same nominal start, the first of no duration, and
    the backend's clips for them. *)
Definition tie_a : SubtitleSegment := spoken 1 1 1.
Definition tie_b : SubtitleSegment := spoken 2 1 3.

Definition tie_synthesize (seg : SubtitleSegment) : Clip :=
  clip_24k (Z.to_N (100 * index seg)).


(** *** Binary64 *)

Abbreviation fexp := (SpecFloat.fexp prec emax).

(** The floats that are not below zero: the zeros, the positive finite
    numbers and the positive infinity. *)
Definition sf_nonneg (x : spec_float) : Prop :=
  match x with
  | S754_zero _ | S754_finite false _ _ | S754_infinity false => True
  | _ => False
  end.



(** Start times of which any two are strictly ordered: no tie and no NaN. *)
Definition apart (a b : float) : Prop :=
  (a <? b)%float = true \/ (b <? a)%float = true.

Fixpoint all_apart (starts : list float) : Prop :=
  match starts with
  | [] => True
  | a :: rest => Forall (apart a) rest /\ all_apart rest
  end.

(** *** Further vocabulary *)

(** *** Strings *)

(** No character of [s] is a line boundary. *)
Fixpoint no_linebreak (s : string) : bool :=
  match s with
  | EmptyString => true
  | String c s' => negb (is_linebreak c) && no_linebreak s'
  end.

(** A translation as one line of an answer can carry it: not empty, without
    white space around it and without a line boundary. *)
Definition clean (t : string) : Prop :=
  strip t = t /\ is_empty t = false /\ no_linebreak t = true.

Fixpoint all_ascii_digits (s : string) : bool :=
  match s with
  | EmptyString => true
  | String c s' => is_ascii_digit c && all_ascii_digits s'
  end.


(** A language code as [main] hands it to the pipeline: not empty, without
    white space around it and without a comma. *)
Definition is_code (c : string) : Prop :=
  is_empty c = false /\ strip c = c /\ contains "," c = false.

(** *** The track of a list without translation *)

(** What the assembly leaves when nothing was synthesized. *)
Definition empty_track {A : Type} `{AudioOps A} : Assembled (A:=A) :=
  {| sequenced := []; final_pos_ms := 0; clips := [];
     combined := silent 0;
     actual_total_duration_seconds := seconds (len (silent 0 : A)) |}.


(** A segment that the synthesis has not reached. *)
Definition unplaced (seg : SubtitleSegment) : Prop :=
  actual_start seg = None /\ actual_end seg = None.

(** The floats that are not above zero, and the NaN, for which [int]
    raises. *)
Definition sf_nonpos (x : spec_float) : Prop :=
  match x with
  | S754_zero _ | S754_finite true _ _ | S754_infinity true | S754_nan => True
  | _ => False
  end.

(** *** A run on the sample scene *)

(** The scene once the two-line answer is stored: the first two segments
    are translated, the third is not. *)
Definition scene_answered : list SubtitleSegment :=
  pipeline.translate_stage scene two_line_answer.

(** The pieces of the two translated segments, the second future having
    completed first: references into the list, with clips of 200 and
    100 ms. *)
Definition scene_pieces : list (nat * Clip) :=
  [(1%nat, clip_24k 200); (0%nat, clip_24k 100)].

(** The same pieces by value, in the two completion orders. *)
Definition scenario_first_two : list (SubtitleSegment * Clip) :=
  [(scenario_1, tie_synthesize scenario_1); (scenario_2, tie_synthesize scenario_2)].

Definition scenario_two_first : list (SubtitleSegment * Clip) :=
  [(scenario_2, tie_synthesize scenario_2); (scenario_1, tie_synthesize scenario_1)].

(** *** Pieces of ordinary size *)


(** The entries of a transcription of the sample scene. *)
Definition scene_entries : list WhisperSegment :=
  [ {| w_start := 0; w_end := 2; w_text := " Hello everyone." |};
    {| w_start := 2; w_end := 5; w_text := " Welcome back." |};
    {| w_start := 5; w_end := 6; w_text := " Goodbye." |} ].

(** *** Shared segments and their values *)

(** The piece [ip] refers to the segment of [sp] in [segments] and carries
    the same clip. *)
Definition refers {A : Type} (segments : list SubtitleSegment)
    (ip : nat * A) (sp : SubtitleSegment * A) : Prop :=
  segments !! fst ip = Some (fst sp) /\ snd ip = snd sp.

(** The list once each segment of [updates] is stored at its position, from
    the first to the last. *)
Definition stored (segments : list SubtitleSegment)
    (updates : list (nat * SubtitleSegment)) : list SubtitleSegment :=
  foldl (fun l p => <[fst p := snd p]> l) segments updates.

(** The pieces of [scene_pieces] by value. *)
Definition scene_value_pieces : list (SubtitleSegment * Clip) :=
  [(scene_2_translated, clip_24k 200);
   (pipeline.set_translated_text scene_1 "Xin chao moi nguoi.", clip_24k 100)].

(** *** The value of a float *)

(** The value of a positive finite float in units of [2^-k]: an integer
    when [k] is large enough. *)
Definition scaled_by (k : Z) (x : spec_float) : Z :=
  match x with
  | S754_finite false m e => Z.pos m * 2 ^ (e + k)
  | _ => 0
  end.

(** * Properties *)

(** ** Helpers on the numbers *)

(** A property of the Booleans checked on [0 .. n-1] holds below [n]. *)
Lemma below_by_enumeration (P : Z -> bool) (n : nat) :
  forallb (fun k => P (Z.of_nat k)) (seq 0 n) = true ->
  forall z, 0 <= z < Z.of_nat n -> P z = true.
Proof.
  intros H z Hz. rewrite forallb_forall in H.
  specialize (H (Z.to_nat z)). rewrite Z2Nat.id in H by lia.
  apply H. apply in_seq. lia.
Qed.

Lemma split_mod m b c :
  0 < b -> 0 < c ->
  m mod (b * c) / b = m / b mod c /\ (m mod (b * c)) mod b = m mod b.
Proof.
  intros Hb Hc. rewrite Z.rem_mul_r by lia.
  pose proof (Z.mod_pos_bound m b Hb).
  split.
  - rewrite Z.mul_comm, Z.div_add by lia. rewrite Z.div_small by lia. lia.
  - rewrite Z.mul_comm, Z.mod_add by lia. apply Z.mod_mod. lia.
Qed.

Ltac in_range :=
  solve [ lia
        | match goal with |- _ <= ?a mod ?b < _ =>
            pose proof (Z.mod_pos_bound a b ltac:(lia)); lia end
        | split; [apply Z.div_pos; lia | apply Z.div_lt_upper_bound; lia] ].

Lemma round_shift_nonneg m e : 0 <= Py.round_shift m e.
Proof.
  unfold Py.round_shift. destruct (0 <=? e) eqn:E.
  - apply Z.shiftl_nonneg. lia.
  - assert (0 <= Z.shiftr (Z.pos m) (- e)) by (apply Z.shiftr_nonneg; lia).
    destruct (_ ?= _); [destruct (Z.even _)|..]; lia.
Qed.

(** The sign given to [binary_round_aux] is the sign of what it returns. *)
Lemma binary_round_aux_sign s m e l :
  match binary_round_aux prec emax s m e l with
  | S754_zero s' | S754_infinity s' | S754_finite s' _ _ => s' = s
  | S754_nan => True
  end.
Proof.
  unfold binary_round_aux.
  destruct (shr_fexp prec emax m e l) as [mrs' e'].
  destruct (shr_fexp prec emax _ e' loc_Exact) as [mrs'' e''].
  destruct (shr_m mrs''); [done| |done].
  by destruct (e'' <=? emax - prec).
Qed.

(** Rounding the product of two floats that are not below zero gives a
    count that is not below zero. *)
Lemma round_of_nonneg_product (x k : float) (m : Z) :
  (0 <=? x)%float = true ->
  (0 <=? k)%float = true ->
  Py.round (x * k)%float = Some m -> 0 <= m.
Proof.
  rewrite !leb_spec. unfold Py.round. rewrite mul_spec.
  change (Prim2SF 0) with (S754_zero false).
  unfold SF64mul, SFleb.
  destruct (Prim2SF x) as [sx|sx| |sx mx ex], (Prim2SF k) as [sk|sk| |sk mk ek];
    simpl; try done; try (intros _ _ [= <-]; lia).
  destruct sx, sk; simpl; try done. intros _ _.
  pose proof (binary_round_aux_sign false (Z.pos (mx * mk)) (ex + ek) loc_Exact) as Hs.
  destruct (binary_round_aux _ _ _ _ _ _) as [s|s| |s m' e']; try done.
  - intros [= <-]; lia.
  - subst s. intros [= <-]. simpl. apply round_shift_nonneg.
Qed.

(** ** src/transcription.py: timestamps *)

Lemma format_0d_two h : 0 <= h < 100 -> format_0d 2 h = two_digits h.
Proof.
  intros Hh.
  apply (below_by_enumeration
    (fun z => String.eqb (format_0d 2 z) (two_digits z)) 100) in Hh.
  - by apply String.eqb_eq.
  - vm_compute. reflexivity.
Qed.

Lemma format_0d_three k : 0 <= k < 1000 -> format_0d 3 k = three_digits k.
Proof.
  intros Hk.
  apply (below_by_enumeration
    (fun z => String.eqb (format_0d 3 z) (three_digits z)) 1000) in Hk.
  - by apply String.eqb_eq.
  - vm_compute. reflexivity.
Qed.

Lemma two_digits_are_digits n :
  0 <= n < 100 ->
  exists a b, two_digits n = String a (String b EmptyString)
              /\ is_ascii_digit a = true /\ is_ascii_digit b = true.
Proof.
  intros Hn.
  apply (below_by_enumeration
    (fun z => match two_digits z with
              | String a (String b EmptyString) => is_ascii_digit a && is_ascii_digit b
              | _ => false end) 100) in Hn; [|vm_compute; reflexivity].
  unfold two_digits in *. eexists _, _. split; [reflexivity|].
  by apply andb_prop in Hn.
Qed.

Lemma three_digits_are_digits n :
  0 <= n < 1000 ->
  exists a b c, three_digits n = String a (String b (String c EmptyString))
              /\ is_ascii_digit a = true /\ is_ascii_digit b = true
              /\ is_ascii_digit c = true.
Proof.
  intros Hn.
  apply (below_by_enumeration
    (fun z => match three_digits z with
              | String a (String b (String c EmptyString)) =>
                  is_ascii_digit a && is_ascii_digit b && is_ascii_digit c
              | _ => false end) 1000) in Hn; [|vm_compute; reflexivity].
  unfold three_digits, two_digits in *. eexists _, _, _. split; [reflexivity|].
  apply andb_prop in Hn as [Hn ?]. apply andb_prop in Hn as [? ?]. done.
Qed.

(** Below one hundred hours the f-string writes two, two, two and three
    digits: the fields of the millisecond count. *)
Lemma format_millis_shape m :
  0 <= m < hundred_hours_ms ->
  format_millis m = hh_mm_ss_mmm m /\ is_hh_mm_ss_mmm (hh_mm_ss_mmm m) = true.
Proof.
  intros Hm. unfold hundred_hours_ms in Hm.
  assert (E : format_millis m = hh_mm_ss_mmm m).
  { unfold format_millis, hh_mm_ss_mmm, Py.divmod.
    destruct (split_mod m 60000 60) as [H1 H2]; [lia..|].
    destruct (split_mod m 1000 60) as [H3 H4]; [lia..|].
    change (60000 * 60) with 3600000 in *. change (1000 * 60) with 60000 in *.
    rewrite H2, H1, H3, H4.
    rewrite !format_0d_two, format_0d_three; first done; in_range. }
  split; [done|]. unfold hh_mm_ss_mmm.
  destruct (two_digits_are_digits (m / 3600000)) as (h1 & h2 & -> & ? & ?);
    first in_range.
  destruct (two_digits_are_digits (m / 60000 mod 60)) as (m1 & m2 & -> & ? & ?);
    first in_range.
  destruct (two_digits_are_digits (m / 1000 mod 60)) as (s1 & s2 & -> & ? & ?);
    first in_range.
  destruct (three_digits_are_digits (m mod 1000)) as (k1 & k2 & k3 & -> & ? & ? & ?);
    first in_range.
  simpl. repeat match goal with H : _ = true |- _ => rewrite H; clear H end.
  reflexivity.
Qed.

(** ** src/transcription.py: [write_srt] *)

Section WriteSrt.
Variables use_translated use_actual_timing : bool.
Abbreviation loop := (write_srt_loop use_translated use_actual_timing).

(** The segments without text for the mode play no part. *)
Lemma write_srt_loop_skips segments lines :
  loop segments lines = loop (blocks_written use_translated segments) lines.
Proof.
  revert lines. induction segments as [|seg rest IH]; intros lines; [done|].
  simpl. unfold has_text.
  destruct (is_empty (selected_text use_translated seg)) eqn:E; simpl.
  - apply IH.
  - rewrite E. destruct (timing_line use_actual_timing seg); simpl; [apply IH|done].
Qed.

Lemma write_srt_loop_blocks segments lines out :
  loop segments lines = Some out ->
  exists blocks,
    Forall2 (is_block_of use_translated use_actual_timing)
      (blocks_written use_translated segments) blocks
    /\ out = (lines ++ concat blocks)%list.
Proof.
  revert lines. induction segments as [|seg rest IH]; intros lines; simpl.
  - intros [= <-]. exists []. split; [constructor|]. simpl. by rewrite app_nil_r.
  - unfold has_text. destruct (is_empty (selected_text use_translated seg)) eqn:E; simpl.
    + apply IH.
    + destruct (timing_line use_actual_timing seg) as [t|] eqn:Et; simpl; [|done].
      intros Hl. destruct (IH _ Hl) as (blocks & HF & ->).
      exists (block_lines use_translated seg t :: blocks). split.
      * constructor; [|done]. by exists t.
      * simpl. by rewrite <- app_assoc.
Qed.

Lemma write_srt_loop_total segments lines :
  Forall (fun seg => is_Some (timing_line use_actual_timing seg))
    (blocks_written use_translated segments) ->
  is_Some (loop segments lines).
Proof.
  revert lines. induction segments as [|seg rest IH]; intros lines; simpl.
  - by eexists.
  - unfold has_text. destruct (is_empty (selected_text use_translated seg)) eqn:E; simpl.
    + apply IH.
    + intros HF. inversion HF as [|? ? [t Ht] HF']; subst.
      rewrite Ht. simpl. by apply IH.
Qed.

End WriteSrt.

(** C8. Whatever the two flags, when the timestamps of the segments that
    have text for the mode can be rendered, [write_srt] writes one block of
    four lines for each of them and for no other segment, in the order of
    the list: the index, the timing line, the stripped text and an empty
    line. A segment without text for the mode is passed over, whatever its
    times are: the call on the whole list is the call on the segments that
    have text. *)
Theorem write_srt_one_block_per_text
    (segments : list SubtitleSegment) (path : string)
    (use_translated use_actual_timing : bool) (fs : gmap string string) :
  Forall (fun seg => is_Some (timing_line use_actual_timing seg))
    (blocks_written use_translated segments) ->
  exists blocks,
    write_srt segments path use_translated use_actual_timing fs
      = Some (<[path := join newline (concat blocks)]> fs)
    /\ Forall2 (is_block_of use_translated use_actual_timing)
         (blocks_written use_translated segments) blocks
    /\ List.length blocks = List.length (blocks_written use_translated segments)
    /\ write_srt (blocks_written use_translated segments) path
         use_translated use_actual_timing fs
       = write_srt segments path use_translated use_actual_timing fs.
Proof.
  intros Hfin. unfold write_srt.
  destruct (write_srt_loop_total use_translated use_actual_timing segments [] Hfin)
    as [out Hout].
  destruct (write_srt_loop_blocks _ _ _ _ _ Hout) as (blocks & HF & ->).
  exists blocks. rewrite Hout. simpl. split; [done|]. split; [done|]. split.
  - symmetry. eapply Forall2_length, HF.
  - by rewrite <- write_srt_loop_skips, Hout.
Qed.

Lemma write_srt_one_block_per_text_witness :
  exists blocks,
    write_srt [scene_1; blank_segment; scene_3] "out.srt" false false ∅
      = Some (<["out.srt" := join newline (concat blocks)]> ∅)
    /\ Forall2 (is_block_of false false)
         (blocks_written false [scene_1; blank_segment; scene_3]) blocks
    /\ List.length blocks
       = List.length (blocks_written false [scene_1; blank_segment; scene_3])
    /\ write_srt (blocks_written false [scene_1; blank_segment; scene_3])
         "out.srt" false false ∅
       = write_srt [scene_1; blank_segment; scene_3] "out.srt" false false ∅.
Proof.
  apply (write_srt_one_block_per_text [scene_1; blank_segment; scene_3]
           "out.srt" false false ∅).
  repeat constructor; vm_compute; eauto.
Defined.



(** A second run of [write_srt] on the files the first one left changes
    nothing. *)
Lemma write_srt_twice segments path use_translated use_actual_timing
    (fs fs' : gmap string string) :
  write_srt segments path use_translated use_actual_timing fs = Some fs' ->
  write_srt segments path use_translated use_actual_timing fs' = Some fs'.
Proof.
  unfold write_srt.
  destruct (write_srt_loop _ _ _ _) as [lines|]; simpl; [|done].
  intros [= <-]. by rewrite insert_insert_eq.
Qed.

(** C9, as the code has it. A number of seconds that is not below zero and
    whose millisecond count [round(seconds * 1000)] is below one hundred
    hours is rendered as [HH:MM:SS,mmm], two, two, two and three digits that
    spell the hours, minutes, seconds and milliseconds of that count. And
    [write_srt] run again on the same segments, path and flags leaves the
    file as the first run wrote it. *)
Theorem format_timestamp_below_hundred_hours
    (seconds : float) (millis : Z)
    (segments : list SubtitleSegment) (path : string)
    (use_translated use_actual_timing : bool) (fs fs' : gmap string string) :
  (0 <=? seconds)%float = true ->
  Py.round (seconds * Py.float_of_int 1000)%float = Some millis ->
  millis < hundred_hours_ms ->
  write_srt segments path use_translated use_actual_timing fs = Some fs' ->
  (0 <= millis
   /\ format_timestamp seconds = Some (hh_mm_ss_mmm millis)
   /\ is_hh_mm_ss_mmm (hh_mm_ss_mmm millis) = true)
  /\ write_srt segments path use_translated use_actual_timing fs' = Some fs'.
Proof.
  intros Hpos Hround Hlt Hw.
  assert (0 <= millis) as H0.
  { eapply round_of_nonneg_product; [exact Hpos| |exact Hround].
    vm_compute. reflexivity. }
  destruct (format_millis_shape millis) as [E Hshape]; [lia|].
  split; [|exact (write_srt_twice _ _ _ _ _ _ Hw)].
  split; [done|]. split; [|done].
  unfold format_timestamp. rewrite Hround. simpl. by rewrite E.
Qed.

Lemma format_timestamp_below_hundred_hours_witness :
  (0 <= 5700
   /\ format_timestamp 5.7 = Some (hh_mm_ss_mmm 5700)
   /\ is_hh_mm_ss_mmm (hh_mm_ss_mmm 5700) = true)
  /\ write_srt scene "out.srt" false false
       (<["out.srt" := scene_srt]> ∅)
     = Some (<["out.srt" := scene_srt]> ∅).
Proof.
  apply (format_timestamp_below_hundred_hours 5.7 5700 scene "out.srt"
           false false ∅).
  - vm_compute. reflexivity.
  - vm_compute. reflexivity.
  - reflexivity.
  - vm_compute. reflexivity.
Defined.

(** C9, as stated, fails from one hundred hours on: the hours take three
    characters. *)
Lemma format_timestamp_hundred_hours :
  (0 <=? 360000)%float = true
  /\ format_timestamp 360000 = Some "100:00:00,000"
  /\ is_hh_mm_ss_mmm "100:00:00,000" = false.
Proof. vm_compute. done. Qed.

(** ** src/pipeline.py: the translation stage *)

Import pipeline gemini_client.

Lemma assign_translations_length segments translated_lines :
  List.length (assign_translations segments translated_lines)
  = List.length segments.
Proof.
  revert translated_lines.
  induction segments as [|seg segs IH]; intros [|t ts]; simpl; auto.
Qed.

Lemma assign_translations_lookup segments translated_lines i seg :
  segments !! i = Some seg ->
  assign_translations segments translated_lines !! i
  = Some match translated_lines !! i with
         | Some t => set_translated_text seg t
         | None => seg
         end.
Proof.
  revert translated_lines i.
  induction segments as [|s segs IH]; intros [|t ts] i Hi; try done.
  destruct i as [|i]; simpl in *.
  - by injection Hi as ->.
  - by apply IH.
Qed.

(** C6. On segments fresh from transcription, the translation stage keeps
    the list as long as it was; the segment at position [i] gets the [i]-th
    translation when there is one and keeps [translated_text = None] when the
    translations have run out: the first [min N M] segments are set, in
    order. No other field of any segment changes. *)
Theorem translation_stage_zip_truncates
    (segments : list SubtitleSegment) (response_text : string)
    (i : nat) (seg : SubtitleSegment) :
  Forall (fun s => translated_text s = None) segments ->
  segments !! i = Some seg ->
  List.length (translate_stage segments response_text) = List.length segments
  /\ exists seg',
       translate_stage segments response_text !! i = Some seg'
       /\ same_but_translation seg seg'
       /\ translated_text seg'
          = translate_lines (List.map text segments) response_text !! i.
Proof.
  intros Hfresh Hi. unfold translate_stage.
  split; [apply assign_translations_length|].
  rewrite (assign_translations_lookup _ _ _ _ Hi).
  eexists. split; [reflexivity|].
  destruct (translate_lines _ _ !! i) as [t|]; simpl.
  - by repeat split.
  - split; [by repeat split|].
    rewrite Forall_lookup in Hfresh. by apply (Hfresh i).
Qed.

Lemma translation_stage_zip_truncates_witness :
  List.length (translate_stage scene two_line_answer) = List.length scene
  /\ exists seg',
       translate_stage scene two_line_answer !! 2%nat = Some seg'
       /\ same_but_translation scene_3 seg'
       /\ translated_text seg'
          = translate_lines (List.map text scene) two_line_answer !! 2%nat.
Proof.
  apply (translation_stage_zip_truncates scene two_line_answer 2 scene_3).
  - repeat constructor.
  - reflexivity.
Defined.

(** ** src/gemini_client.py *)

(** C4, on the code. The first parsing loop cuts a line that starts with a
    digit at its first dot, wherever that dot is: the sentence before the
    dot is lost, and so is the text between a [N)] marker and a later dot. *)
Theorem parse_line_cuts_at_first_dot :
  parse_line counted_sentence = "Then left"
  /\ parse_line parenthesis_then_dot = "Tam biet"
  /\ translate_lines ["a"] counted_sentence = ["Then left"].
Proof. vm_compute. done. Qed.

(** What the first loop does to every line that starts with a digit and
    holds a dot. *)
Lemma parse_line_digit_dot (raw_line before after : string) :
  starts_with_digit raw_line = true ->
  split_once dot raw_line = [before; after] ->
  parse_line raw_line = strip after.
Proof.
  intros Hd Hs. unfold parse_line. rewrite Hd, Hs.
  assert (contains dot raw_line = true) as ->; [|done].
  clear Hd. revert before Hs.
  induction raw_line as [|c s IH]; cbn [contains split_once]; [done|].
  intros before.
  destruct (Ascii.eqb dot c); [done|].
  destruct (split_once dot s) as [|p ps] eqn:E; [done|].
  intros [= _ ->]. by eapply IH.
Qed.

(** A line that does not start with a digit is kept as it is by the
    first loop. *)
Lemma parse_line_unnumbered (raw_line : string) :
  starts_with_digit raw_line = false -> parse_line raw_line = raw_line.
Proof. intros Hd. unfold parse_line. by rewrite Hd, !andb_false_r. Qed.

(** C5, on the code. The lenient loop passes over every non-empty line that
    does not start with a digit before it looks at anything else: of the
    answer [short_answer] to three lines it keeps the numbered line only, so
    the line without digits adds no entry. *)
Theorem recover_lines_drops_unnumbered :
  recover_line "Tam biet" = []
  /\ recover_lines (splitlines short_answer) = ["Xin chao"]
  /\ translate_lines ["a"; "b"; "c"] short_answer = ["Xin chao"; "Tam biet"].
Proof. vm_compute. done. Qed.

(** Every non-empty line whose first character is not a digit is dropped by
    the lenient loop, with or without digits further on. *)
Lemma recover_line_unnumbered (line : string) :
  is_empty line = false ->
  starts_with_digit line = false ->
  recover_line line = [].
Proof. intros He Hd. unfold recover_line. by rewrite He, Hd. Qed.

(** The lenient loop keeps a line without ASCII digit only when it starts
    with one of the three superscript digits. *)
Lemma recover_line_kept_verbatim (line : string) :
  has_ascii_digit line = false ->
  recover_line line <> [] ->
  starts_with_digit line = true /\ recover_line line = [line].
Proof.
  intros Hd. unfold recover_line.
  destruct (is_empty line) eqn:He; simpl.
  - destruct line; [|done]. simpl. done.
  - destruct (starts_with_digit line) eqn:Hs; simpl; [|done].
    assert (match_numbered line = None) as ->.
    { destruct line as [|c s]; [done|]. simpl in *.
      by destruct (is_ascii_digit c). }
    rewrite Hd. done.
Qed.

(** ** Binary64: rounding, order and sign

    The operations of [PrimFloat] are specified by those of [SpecFloat];
    the facts below are read off the latter. *)

Lemma digits2_pos_log2 p : Zpos (digits2_pos p) = Z.log2 (Zpos p) + 1.
Proof.
  assert (Hs : forall q, digits2_pos q = Pos.size q).
  { induction q; simpl; congruence. }
  rewrite Hs. destruct p; simpl; lia.
Qed.

Lemma Zdigits2_pos m : 0 < m -> Zdigits2 m = Z.log2 m + 1.
Proof. destruct m; try lia. intros _. apply digits2_pos_log2. Qed.

Lemma Zdigits2_bounds m : 0 < m -> 2 ^ (Zdigits2 m - 1) <= m < 2 ^ Zdigits2 m.
Proof.
  intros Hm. rewrite Zdigits2_pos by done.
  replace (Z.log2 m + 1 - 1) with (Z.log2 m) by lia.
  apply Z.log2_spec. done.
Qed.

Lemma Zdigits2_mono a b : 0 < a <= b -> Zdigits2 a <= Zdigits2 b.
Proof.
  intros H. rewrite !Zdigits2_pos by lia.
  pose proof (Z.log2_le_mono a b). lia.
Qed.

Lemma shr_1_m r : 0 <= shr_m r -> shr_m (shr_1 r) = shr_m r / 2.
Proof.
  destruct r as [m b s]. simpl. intros Hm.
  destruct m as [|p|p]; [done| |lia].
  destruct p; simpl.
  - rewrite Pos2Z.inj_xI. rewrite Z.mul_comm, Z.div_add_l by lia. 
    change (1 / 2) with 0. lia.
  - rewrite Pos2Z.inj_xO. rewrite Z.mul_comm, Z.div_mul by lia. done.
  - done.
Qed.

Lemma iter_shr_m p : forall r, 0 <= shr_m r ->
  shr_m (SpecFloat.iter_pos shr_1 p r) = shr_m r / 2 ^ Zpos p.
Proof.
  assert (Hnn : forall r, 0 <= shr_m r -> 0 <= shr_m (shr_1 r)).
  { intros r Hr. rewrite shr_1_m by done. apply Z.div_pos; lia. }
  induction p as [p IH|p IH|]; intros r Hr; simpl.
  - assert (H1 := Hnn r Hr).
    assert (0 <= shr_m (SpecFloat.iter_pos shr_1 p (shr_1 r))).
    { rewrite IH by done. apply Z.div_pos; lia. }
    rewrite IH, IH, shr_1_m by done.
    rewrite !Z.div_div by lia. f_equal.
    rewrite Pos2Z.inj_xI, Z.pow_add_r, Z.pow_mul_r by lia.
    change (2 ^ 2) with 4. rewrite <- Z.pow_add_r by lia.
    replace (Z.pos p + Z.pos p) with (2 * Z.pos p) by lia.
    rewrite Z.pow_mul_r by lia. change (2 ^ 2) with 4. change (2 ^ 1) with 2. lia.
  - assert (0 <= shr_m (SpecFloat.iter_pos shr_1 p r)).
    { rewrite IH by done. apply Z.div_pos; lia. }
    rewrite IH, IH by done.
    rewrite !Z.div_div by lia. f_equal.
    rewrite <- Z.pow_add_r by lia. f_equal. lia.
  - rewrite shr_1_m by done. done.
Qed.

Lemma shr_fexp_spec m e l :
  0 <= m ->
  let n := Z.max 0 (fexp (Zdigits2 m + e) - e) in
  shr_m (fst (shr_fexp prec emax m e l)) = m / 2 ^ n
  /\ snd (shr_fexp prec emax m e l) = e + n.
Proof.
  intros Hm n. unfold shr_fexp, shr.
  assert (Hr : shr_m (shr_record_of_loc m l) = m).
  { destruct l as [|[]]; done. }
  subst n. destruct (fexp (Zdigits2 m + e) - e) as [|p|p] eqn:E; simpl.
  - rewrite Hr, Z.div_1_r. lia.
  - rewrite iter_shr_m by lia. rewrite Hr. split; [done|lia].
  - rewrite Hr, Z.div_1_r. lia.
Qed.

Lemma round_nearest_even_bounds m l :
  round_nearest_even m l = m \/ round_nearest_even m l = m + 1.
Proof.
  unfold round_nearest_even. destruct l as [|[]]; auto.
  destruct (Z.even m); auto.
Qed.

(** What [binary_round_aux] returns on a mantissa that is not negative. *)
Lemma binary_round_aux_spec s m e l :
  0 <= m ->
  let n := Z.max 0 (fexp (Zdigits2 m + e) - e) in
  exists m1,
    (m1 = m / 2 ^ n \/ m1 = m / 2 ^ n + 1)
    /\ let n2 := Z.max 0 (fexp (Zdigits2 m1 + (e + n)) - (e + n)) in
       binary_round_aux prec emax s m e l
       = match m1 / 2 ^ n2 with
         | Z0 => S754_zero s
         | Zpos p =>
             if e + n + n2 <=? emax - prec then S754_finite s p (e + n + n2)
             else S754_infinity s
         | Zneg _ => S754_nan
         end.
Proof.
  intros Hm n. unfold binary_round_aux.
  destruct (shr_fexp_spec m e l Hm) as [H1 H2]. fold n in H1, H2.
  destruct (shr_fexp prec emax m e l) as [mrs' e']. simpl in H1, H2. subst e'.
  set (m1 := round_nearest_even (shr_m mrs') (loc_of_shr_record mrs')).
  exists m1. split.
  { subst m1. rewrite <- H1. apply round_nearest_even_bounds. }
  assert (0 <= m1).
  { assert (0 <= m / 2 ^ n) by (apply Z.div_pos; lia).
    subst m1. destruct (round_nearest_even_bounds (shr_m mrs') (loc_of_shr_record mrs')) as [-> | ->]; lia. }
  cbv zeta.
  destruct (shr_fexp_spec m1 (e + n) loc_Exact) as [H3 H4]; [done|].
  cbv zeta in H3, H4.
  destruct (shr_fexp prec emax m1 (e + n) loc_Exact) as [mrs'' e'']. simpl in H3, H4.
  subst e''. rewrite H3. done.
Qed.

Lemma fexp_eq d : fexp d = Z.max (d - 53) (-1074).
Proof. reflexivity. Qed.


Lemma Zdigits2_shift m n :
  0 < m -> 0 <= n < Zdigits2 m -> Zdigits2 (m / 2 ^ n) = Zdigits2 m - n.
Proof.
  intros Hm Hn. rewrite Zdigits2_pos in Hn by done.
  assert (0 < m / 2 ^ n).
  { apply Z.div_str_pos. split; [apply Z.pow_pos_nonneg; lia|].
    etransitivity; [|apply Z.log2_spec; done]. apply Z.pow_le_mono_r; lia. }
  rewrite !Zdigits2_pos by done.
  rewrite <- Z.shiftr_div_pow2 by lia. rewrite Z.log2_shiftr by done. lia.
Qed.

Lemma Zdigits2_mul_pow2 m k :
  0 < m -> 0 <= k -> Zdigits2 (m * 2 ^ k) = Zdigits2 m + k.
Proof.
  intros Hm Hk.
  assert (0 < m * 2 ^ k) by (apply Z.mul_pos_pos; [done|apply Z.pow_pos_nonneg; lia]).
  rewrite !Zdigits2_pos by done. rewrite Z.log2_mul_pow2 by lia. lia.
Qed.

Lemma iter_xO m d : Zpos (Pos.iter xO m d) = Zpos m * 2 ^ Zpos d.
Proof.
  induction d using Pos.peano_ind.
  - simpl. lia.
  - rewrite Pos.iter_succ, Pos2Z.inj_xO, IHd, Pos2Z.inj_succ, Z.pow_succ_r by lia. lia.
Qed.

Lemma shl_align_below m e e' :
  e' <= e -> Zpos (fst (shl_align m e e')) = Zpos m * 2 ^ (e - e')
             /\ snd (shl_align m e e') = e'.
Proof.
  intros H. unfold shl_align.
  destruct (e' - e) as [|p|p] eqn:E; simpl; try lia.
  - replace (e - e') with 0 by lia. lia.
  - rewrite iter_xO. replace (e - e') with (Z.pos p) by lia. lia.
Qed.

Lemma shl_align_above m e e' : e <= e' -> shl_align m e e' = (m, e).
Proof.
  intros H. unfold shl_align. destruct (e' - e) eqn:E; try done. lia.
Qed.

Lemma bounded_inv m e :
  bounded prec emax m e = true ->
  fexp (Zdigits2 (Zpos m) + e) = e /\ e <= 971 /\ -1074 <= e.
Proof.
  unfold bounded, canonical_mantissa. intros H.
  apply andb_prop in H as [H1 H2].
  apply Z.eqb_eq in H1. apply Z.leb_le in H2. simpl.
  split; [done|]. split; [exact H2|].
  rewrite fexp_eq in H1. lia.
Qed.


Lemma sf_nonneg_leb x : sf_nonneg x <-> SFleb (S754_zero false) x = true.
Proof. destruct x as [s|[]| |[] m e]; simpl; split; done. Qed.



(** On a mantissa that is not negative [binary_round_aux] returns a zero, a
    finite number or an infinity of the sign it was given. *)
Lemma binary_round_aux_signed s m e l :
  0 <= m ->
  match binary_round_aux prec emax s m e l with
  | S754_zero s' | S754_infinity s' | S754_finite s' _ _ => s' = s
  | S754_nan => False
  end.
Proof.
  intros Hm.
  destruct (binary_round_aux_spec s m e l Hm) as (m1 & Hm1 & ->).
  assert (0 <= m / 2 ^ Z.max 0 (fexp (Zdigits2 m + e) - e)) by (apply Z.div_pos; lia).
  set (n2 := Z.max 0 _).
  assert (0 <= m1 / 2 ^ n2) by (apply Z.div_pos; lia).
  destruct (m1 / 2 ^ n2); [done| |lia].
  by destruct (_ <=? _).
Qed.

Lemma binary_round_aux_valid s m e l :
  0 <= m -> e <= fexp (Zdigits2 m + e) ->
  valid_binary (binary_round_aux prec emax s m e l) = true.
Proof.
  intros Hm He.
  destruct (binary_round_aux_spec s m e l Hm) as (m1 & Hm1 & ->).
  set (n := Z.max 0 (fexp (Zdigits2 m + e) - e)) in *.
  assert (Hn : e + n = fexp (Zdigits2 m + e)) by lia.
  assert (HE : -1074 <= e + n) by (rewrite Hn, fexp_eq; lia).
  assert (Hm' : 0 <= m / 2 ^ n) by (apply Z.div_pos; lia).
  set (n2 := Z.max 0 _).
  destruct (m1 / 2 ^ n2) as [|p|p] eqn:Ep; [done| |done].
  destruct (e + n + n2 <=? emax - prec) eqn:Eb; [|done].
  simpl. unfold bounded. rewrite Eb, andb_true_r.
  unfold canonical_mantissa. apply Z.eqb_eq.
  change (Z.pos (digits2_pos p)) with (Zdigits2 (Z.pos p)). rewrite <- Ep.
  assert (H1 : 0 < m1).
  { destruct (Z.eq_dec m1 0) as [->|]; [|lia]. by rewrite Z.div_0_l in Ep by (subst n2; lia). }
  assert (Hd1 : 0 < Zdigits2 m1).
  { rewrite Zdigits2_pos by done. pose proof (Z.log2_nonneg m1). lia. }
  destruct (Z_le_gt_dec (Zdigits2 m1) 53) as [Hle|Hgt].
  - (* no second shift *)
    assert (n2 = 0) as -> by (subst n2; rewrite fexp_eq; lia).
    rewrite Z.div_1_r, Z.add_0_r.
    destruct (Z.eq_dec (e + n) (-1074)) as [Emin|Hnormal].
    + rewrite fexp_eq. lia.
    + (* the first shift left 53 digits *)
      assert (Hdm : 0 < m).
      { destruct (Z.eq_dec m 0) as [->|]; [|lia]. simpl in Hn. rewrite fexp_eq in Hn. lia. }
      assert (Hdig : 0 < Zdigits2 m).
      { rewrite Zdigits2_pos by done. pose proof (Z.log2_nonneg m). lia. }
      assert (Hnn : n = Zdigits2 m - 53) by (rewrite fexp_eq in Hn; lia).
      assert (Zdigits2 (m / 2 ^ n) = 53).
      { rewrite Zdigits2_shift by lia. lia. }
      assert (0 < m / 2 ^ n).
      { destruct (Z.eq_dec (m / 2 ^ n) 0) as [E0|]; [|lia]. by rewrite E0 in *. }
      assert (Zdigits2 (m / 2 ^ n) <= Zdigits2 m1) by (apply Zdigits2_mono; lia).
      rewrite fexp_eq. lia.
  - assert (n2 = Zdigits2 m1 - 53) as -> by (subst n2; rewrite fexp_eq; lia).
    rewrite Zdigits2_shift by lia. rewrite fexp_eq. lia.
Qed.

Lemma binary_normalize_valid z :
  valid_binary (binary_normalize prec emax z 0 false) = true.
Proof.
  assert (H : forall s p, valid_binary (binary_round prec emax s p 0) = true).
  { intros s p. unfold binary_round.
    change (Z.pos (digits2_pos p)) with (Zdigits2 (Z.pos p)).
    destruct (Z_le_gt_dec 0 (fexp (Zdigits2 (Z.pos p) + 0))) as [Hle|Hgt].
    - rewrite shl_align_above by done. apply binary_round_aux_valid; [lia|done].
    - destruct (shl_align_below p 0 (fexp (Zdigits2 (Z.pos p) + 0))) as [E1 E2]; [lia|].
      set (t := fexp (Zdigits2 (Z.pos p) + 0)) in *.
      destruct (shl_align p 0 t) as [mz ez]. cbn [fst snd] in E1, E2. subst ez.
      apply binary_round_aux_valid; [lia|].
      rewrite E1, Zdigits2_mul_pow2 by lia.
      replace (Zdigits2 (Z.pos p) + (0 - t) + t) with (Zdigits2 (Z.pos p) + 0) by lia.
      fold t. lia. }
  destruct z; simpl; [done|apply H|apply H].
Qed.



Lemma Prim2SF_float_of_int z :
  Prim2SF (Py.float_of_int z) = binary_normalize prec emax z 0 false.
Proof. unfold Py.float_of_int. apply Prim2SF_SF2Prim, binary_normalize_valid. Qed.



(** ** src/tts.py: the loop of the assembly *)

Section Arrange.
Context {A : Type} `{AudioOps A}.

Lemma total_ms_app (l1 l2 : list A) :
  total_ms (l1 ++ l2) = total_ms l1 + total_ms l2.
Proof. induction l1 as [|a l1 IH]; simpl; [done|]. rewrite IH. lia. Qed.

(** The loop adjusts each piece, appends the adjusted clips in order, moves
    the cursor by their lengths and gives each segment the times of the
    cursor. *)
Lemma arrange_loop_spec (ps : list (SubtitleSegment * A)) pos audio segs pos' audio' :
  arrange_loop ps pos audio = Some (segs, pos', audio') ->
  exists adj : list A,
    Forall2 (fun sp a => adjust (fst sp) (snd sp) = Some a) ps adj
    /\ audio' = (audio ++ adj)%list
    /\ pos' = pos + total_ms adj
    /\ segs = placed pos (List.map fst ps) adj.
Proof.
  revert pos audio segs pos' audio'.
  induction ps as [|[seg piece] ps IH]; intros pos audio segs pos' audio'.
  - intros [= <- <- <-]. exists []. simpl. rewrite app_nil_r.
    repeat split; [constructor|lia].
  - cbn [arrange_loop].
    destruct (adjust seg piece) as [a|] eqn:Ea; simpl; [|done].
    destruct (arrange_loop ps _ _) as [[[segs0 pos0] audio0]|] eqn:El;
      simpl; [|done].
    intros [= <- <- <-].
    destruct (IH _ _ _ _ _ El) as (adj & HF & -> & -> & ->).
    exists (a :: adj). simpl. rewrite <- app_assoc.
    repeat split; [by constructor|lia].
Qed.



Lemma placed_lookup pos (segs : list SubtitleSegment) (l : list A) i seg' :
  placed pos segs l !! i = Some seg' ->
  exists seg a,
    segs !! i = Some seg /\ l !! i = Some a
    /\ seg' = set_actual seg (seconds (pos + cursor_ms l i))
                (seconds (pos + cursor_ms l i) + seconds (len a))%float.
Proof.
  revert pos l i.
  induction segs as [|seg segs IH]; intros pos [|a l] i; simpl; try done.
  destruct i as [|i]; simpl.
  - intros [= <-]. exists seg, a. unfold cursor_ms. simpl.
    by rewrite Z.add_0_r.
  - intros Hi. destruct (IH _ _ _ Hi) as (seg0 & a0 & ? & ? & ->).
    exists seg0, a0. unfold cursor_ms. simpl.
    by rewrite Z.add_assoc.
Qed.


Lemma cursor_ms_step (l : list A) i a :
  l !! i = Some a -> cursor_ms l (S i) = cursor_ms l i + len a.
Proof.
  intros Hi. unfold cursor_ms.
  rewrite (take_S_r _ _ _ Hi), total_ms_app. simpl. lia.
Qed.

Lemma cursor_ms_all (l : list A) : cursor_ms l (List.length l) = total_ms l.
Proof. unfold cursor_ms. by rewrite firstn_all. Qed.

Context `{!AudioLaws A}.

Lemma total_ms_nonneg (l : list A) : 0 <= total_ms l.
Proof.
  induction l as [|a l IH]; simpl; [lia|]. pose proof (len_nonneg a). lia.
Qed.



End Arrange.

(** ** src/tts.py: [_time_stretch_to_duration] *)





(** ** src/tts.py: the order of the pieces *)

(** C2, on the code. Two segments with the same nominal start: the stable
    sort leaves them in the order their futures completed, so one completion
    order plays the first segment first and the other plays it second, with
    other times for both. *)
Theorem completion_order_decides_ties :
  exists out_ab out_ba,
    synthesize_translated_audio tie_synthesize [tie_a; tie_b] out_ab
    /\ synthesize_translated_audio tie_synthesize [tie_a; tie_b] out_ba
    /\ List.map index (sequenced out_ab) = [1; 2]
    /\ List.map index (sequenced out_ba) = [2; 1]
    /\ List.map achieved (sequenced out_ab)
       = [(Some 0, Some 0.1); (Some 0.1, Some 0.367)]%float
    /\ List.map achieved (sequenced out_ba)
       = [(Some 0, Some 0.267); (Some 0.267, Some 0.367)]%float.
Proof.
  eexists _, _. split; [|split].
  - exists [(tie_a, tie_synthesize tie_a); (tie_b, tie_synthesize tie_b)].
    split; [unfold collected; reflexivity|]. vm_compute. reflexivity.
  - exists [(tie_b, tie_synthesize tie_b); (tie_a, tie_synthesize tie_a)].
    split; [unfold collected; apply perm_swap|]. vm_compute. reflexivity.
  - vm_compute. done.
Qed.

(** ** src/tts.py: the scenario of the design document *)



(** The reference audio type has the three facts about lengths. *)
#[export] Instance clip_laws : AudioLaws Clip.
Proof.
  split.
  - intros a. simpl. lia.
  - intros a b. simpl. lia.
  - reflexivity.
Qed.


(** ** src/tts.py: the sort *)

Lemma SFltb_asym x y : SFltb x y = true -> SFltb y x = false.
Proof.
  unfold SFltb, SFcompare.
  destruct x as [sx|sx| |sx mx ex], y as [sy|sy| |sy my ey]; try done;
    repeat match goal with s : bool |- _ => destruct s end; try done.
  - rewrite (Z.compare_antisym ex ey).
    destruct (ex ?= ey); simpl; try done.
    change (Pos.compare_cont Eq my mx) with (Pos.compare my mx).
    change (Pos.compare_cont Eq mx my) with (Pos.compare mx my).
    rewrite (Pos.compare_antisym mx my).
    by destruct (Pos.compare mx my).
  - rewrite (Z.compare_antisym ex ey).
    destruct (ex ?= ey); simpl; try done.
    change (Pos.compare_cont Eq my mx) with (Pos.compare my mx).
    change (Pos.compare_cont Eq mx my) with (Pos.compare mx my).
    rewrite (Pos.compare_antisym mx my).
    by destruct (Pos.compare mx my).
Qed.

Lemma ltb_asym (x y : float) : (x <? y)%float = true -> (y <? x)%float = false.
Proof. rewrite !ltb_spec. apply SFltb_asym. Qed.




Lemma SFltb_finite m1 e1 m2 e2 :
  SFltb (S754_finite false m1 e1) (S754_finite false m2 e2) = true
  <-> e1 < e2 \/ (e1 = e2 /\ (m1 < m2)%positive).
Proof.
  unfold SFltb, SFcompare.
  change (Pos.compare_cont Eq m1 m2) with (Pos.compare m1 m2).
  destruct (Z.compare_spec e1 e2); destruct (Pos.compare_spec m1 m2);
    split; intros; try done; try lia.
Qed.

Lemma SFltb_finite_neg m1 e1 m2 e2 :
  SFltb (S754_finite true m1 e1) (S754_finite true m2 e2) = true
  <-> e2 < e1 \/ (e1 = e2 /\ (m2 < m1)%positive).
Proof.
  unfold SFltb, SFcompare.
  change (Pos.compare_cont Eq m1 m2) with (Pos.compare m1 m2).
  destruct (Z.compare_spec e1 e2); destruct (Pos.compare_spec m1 m2);
    split; simpl; intros; try done; try lia.
Qed.

Lemma SFltb_trans x y z : SFltb x y = true -> SFltb y z = true -> SFltb x z = true.
Proof.
  destruct x as [sx|sx| |sx mx ex], y as [sy|sy| |sy my ey], z as [sz|sz| |sz mz ez];
    try done;
    repeat match goal with s : bool |- _ => destruct s end; try done.
  - rewrite !SFltb_finite_neg. lia.
  - rewrite !SFltb_finite. lia.
Qed.

Lemma ltb_trans (x y z : float) :
  (x <? y)%float = true -> (y <? z)%float = true -> (x <? z)%float = true.
Proof. rewrite !ltb_spec. apply SFltb_trans. Qed.

(** Two insertions with strictly ordered keys commute. *)
Lemma insert_by_swap {X : Type} (key : X -> float) (x y : X) (l : list X) :
  (key x <? key y)%float = true ->
  insert_by key x (insert_by key y l) = insert_by key y (insert_by key x l).
Proof.
  intros Hxy. pose proof (ltb_asym _ _ Hxy) as Hyx.
  induction l as [|z l IH]; simpl.
  - by rewrite Hxy, Hyx.
  - destruct (key z <? key y)%float eqn:Ezy, (key z <? key x)%float eqn:Ezx; simpl;
      rewrite ?Ezy, ?Ezx, ?Hxy, ?Hyx; simpl; rewrite ?Ezy, ?Ezx; try done.
    + by rewrite IH.
    + by rewrite (ltb_trans _ _ _ Ezx Hxy) in Ezy.
Qed.

Lemma all_apart_perm (l l' : list float) : l ≡ₚ l' -> all_apart l -> all_apart l'.
Proof.
  induction 1 as [|a l l' Hp IH|a b l|l l' l'' _ IH1 _ IH2]; simpl; auto.
  - intros [Ha Hl]. split; [by rewrite <- Hp|auto].
  - intros [Ha [Hb Hl]]. inversion Ha as [|? ? Hab Hal]; subst.
    split; [|done]. constructor; [|done]. destruct Hab; [by right|by left].
Qed.

(** With start times strictly apart, [sorted] returns the same list for
    every order of its input. *)
Lemma sorted_perm {X : Type} (key : X -> float) (l l' : list X) :
  l ≡ₚ l' -> all_apart (List.map key l) -> sorted key l = sorted key l'.
Proof.
  induction 1 as [|a l l' Hp IH|a b l|l l' l'' Hp1 IH1 Hp2 IH2]; simpl.
  - done.
  - intros [_ Hl]. by rewrite IH.
  - intros [Ha _]. inversion Ha as [|? ? Hab _]; subst.
    destruct Hab as [Hba|Hab].
    + by apply insert_by_swap.
    + symmetry. by apply insert_by_swap.
  - intros Hl. rewrite IH1 by done. apply IH2.
    eapply all_apart_perm; [|exact Hl]. by apply Permutation_map.
Qed.

(** When no two nominal starts tie, the assembly does not depend on the
    order in which the futures completed. *)
Lemma arrange_any_completion_order {A : Type} `{AudioOps A}
    (pieces pieces' : list (SubtitleSegment * A)) :
  pieces ≡ₚ pieces' ->
  all_apart (List.map (fun sp => start (fst sp)) pieces) ->
  arrange pieces = arrange pieces'.
Proof. intros Hp Ha. unfold arrange. by rewrite (sorted_perm _ _ _ Hp Ha). Qed.


(** ** src/tts.py: the assembly *)




(** * Further properties of the code *)

(* lemmas *)
Lemma string_app_cons x (a b : string) : (String x a ++ b = String x (a ++ b))%string.
Proof. reflexivity. Qed.

Lemma string_app_nil_l (b : string) : ("" ++ b = b)%string.
Proof. reflexivity. Qed.

Lemma string_app_assoc (a b c : string) : ((a ++ b) ++ c = a ++ (b ++ c))%string.
Proof. induction a as [|x a IH]; [done|]. by rewrite !string_app_cons, IH. Qed.

Lemma string_app_nil_r (a : string) : (a ++ "" = a)%string.
Proof. induction a as [|x a IH]; [done|]. by rewrite string_app_cons, IH. Qed.

Lemma is_empty_app (a b : string) :
  is_empty b = false -> is_empty (a ++ b) = false.
Proof. by destruct a. Qed.

Lemma rstrip_app (a b : string) :
  is_empty b = false -> rstrip b = b -> rstrip (a ++ b) = (a ++ b)%string.
Proof.
  intros Hb Hr. induction a as [|c a IH]; [done|].
  rewrite string_app_cons. cbn [rstrip].
  rewrite IH. pose proof (is_empty_app a b Hb). by destruct (a ++ b)%string.
Qed.

Lemma nil_empty_digits d : all_ascii_digits (NilEmpty.string_of_uint d) = true.
Proof. induction d; simpl; try done. Qed.

Lemma str_of_int_digits k :
  0 < k -> all_ascii_digits (str_of_int k) = true /\ is_empty (str_of_int k) = false.
Proof.
  destruct k as [|p|p]; try lia. intros _.
  unfold str_of_int. simpl.
  pose proof (DecimalPos.Unsigned.to_uint_nonnil p) as Hn.
  unfold NilZero.string_of_uint. destruct (Pos.to_uint p) eqn:E; try done;
    rewrite <- E; (split; [apply nil_empty_digits|rewrite E; done]).
Qed.

Lemma digit_not_space c : is_ascii_digit c = true -> isspace c = false.
Proof.
  unfold is_ascii_digit, isspace. intros H.
  apply andb_prop in H as [H1 H2].
  apply N.leb_le in H1. apply N.leb_le in H2.
  repeat match goal with
  | |- context [(?a <=? ?b)%N] => destruct (N.leb_spec a b)
  | |- context [(?a =? ?b)%N] => destruct (N.eqb_spec a b)
  end; simpl; try done; lia.
Qed.

Lemma digit_is_digit c : is_ascii_digit c = true -> isdigit c = true.
Proof. unfold isdigit. by intros ->. Qed.

Lemma digit_not_dot c : is_ascii_digit c = true -> Ascii.eqb dot c = false.
Proof.
  intros H. destruct (Ascii.eqb_spec dot c) as [<-|]; [|done]. done.
Qed.

Lemma digits_no_dot d : all_ascii_digits d = true -> contains dot d = false.
Proof.
  induction d as [|c d IH]; cbn [contains all_ascii_digits]; [done|]. intros H.
  apply andb_prop in H as [Hc Hd]. rewrite (digit_not_dot c Hc). auto.
Qed.

Lemma split_once_at c (d rest : string) :
  contains c d = false -> split_once c (d ++ String c rest) = [d; rest].
Proof.
  induction d as [|x d IH].
  - intros _. rewrite string_app_nil_l. cbn [split_once]. by rewrite Ascii.eqb_refl.
  - rewrite string_app_cons. cbn [split_once contains].
    destruct (Ascii.eqb c x); [done|]. intros H. by rewrite IH.
Qed.

Lemma contains_app_r c (d rest : string) :
  contains c (d ++ String c rest) = true.
Proof.
  induction d as [|x d IH].
  - rewrite string_app_nil_l. cbn [contains]. by rewrite Ascii.eqb_refl.
  - rewrite string_app_cons. cbn [contains]. by destruct (Ascii.eqb c x).
Qed.

Lemma no_linebreak_app (a b : string) :
  no_linebreak (a ++ b) = no_linebreak a && no_linebreak b.
Proof.
  induction a as [|x a IH]; [done|].
  rewrite string_app_cons. cbn [no_linebreak]. rewrite IH. by rewrite andb_assoc.
Qed.

Lemma digit_not_linebreak c : is_ascii_digit c = true -> is_linebreak c = false.
Proof.
  unfold is_ascii_digit, is_linebreak. intros H.
  apply andb_prop in H as [H1 H2].
  apply N.leb_le in H1. apply N.leb_le in H2.
  repeat match goal with
  | |- context [(?a <=? ?b)%N] => destruct (N.leb_spec a b)
  | |- context [(?a =? ?b)%N] => destruct (N.eqb_spec a b)
  end; simpl; try done; lia.
Qed.

Lemma digits_no_linebreak d : all_ascii_digits d = true -> no_linebreak d = true.
Proof.
  induction d as [|c d IH]; cbn [no_linebreak all_ascii_digits]; [done|]. intros H.
  apply andb_prop in H as [Hc Hd]. rewrite (digit_not_linebreak c Hc). auto.
Qed.

Lemma clean_first l : clean l -> lstrip l = l.
Proof.
  intros (Hs & He & _). destruct l as [|c l]; [done|].
  unfold strip in Hs. cbn [lstrip] in *.
  destruct (isspace c) eqn:Ec; [|done].
  exfalso.
  assert (forall s, String.length (rstrip s) <= String.length s)%nat as Hr.
  { clear. induction s as [|x s IH]; cbn [rstrip String.length]; [lia|].
    destruct (rstrip s); [destruct (isspace x)|]; cbn [String.length] in *; lia. }
  assert (forall s, String.length (lstrip s) <= String.length s)%nat as Hl.
  { clear. induction s as [|x s IH]; cbn [lstrip String.length]; [lia|].
    destruct (isspace x); cbn [String.length]; lia. }
  pose proof (Hr (lstrip l)) as H1. pose proof (Hl l) as H2.
  rewrite Hs in H1. cbn [String.length] in H1. lia.
Qed.

Lemma clean_last l : clean l -> rstrip l = l.
Proof.
  intros Hg. pose proof (clean_first l Hg) as Hl.
  destruct Hg as (Hs & _). unfold strip in Hs. by rewrite Hl in Hs.
Qed.

(** A numbered line of the prompt's format is read back by the first loop. *)
Lemma parse_numbered_line k t :
  0 < k -> clean t ->
  let line := (str_of_int k ++ ". " ++ t)%string in
  strip line = line /\ is_empty line = false /\ parse_line line = t
  /\ no_linebreak line = true.
Proof.
  intros Hk Hcl. intros line.
  pose proof (clean_first t Hcl) as Hl. pose proof (clean_last t Hcl) as Hr.
  destruct Hcl as (_ & Ht & Hn).
  destruct (str_of_int_digits k Hk) as [Hd He].
  assert (Hnl : no_linebreak line = true).
  { subst line. rewrite !no_linebreak_app, (digits_no_linebreak _ Hd), Hn. done. }
  destruct (str_of_int k) as [|c d] eqn:E; [done|].
  cbn [all_ascii_digits] in Hd. apply andb_prop in Hd as [Hc Hd].
  assert (Hrl : rstrip line = line).
  { subst line. rewrite <- string_app_assoc. by apply rstrip_app. }
  assert (Hsl : strip line = line).
  { unfold strip. subst line. rewrite string_app_cons. cbn [lstrip].
    rewrite (digit_not_space c Hc). rewrite <- string_app_cons. exact Hrl. }
  split; [done|]. split; [done|]. split; [|done].
  unfold parse_line.
  assert (line = (String c d ++ String dot (String " " t))%string) as -> by done.
  rewrite contains_app_r. rewrite string_app_cons. cbn [starts_with_digit].
  rewrite (digit_is_digit c Hc). cbn [andb]. rewrite <- string_app_cons.
  rewrite split_once_at.
  - unfold strip. cbn [lstrip]. replace (isspace " ") with true by done.
    by rewrite Hl.
  - cbn [contains]. rewrite (digit_not_dot c Hc). by apply digits_no_dot.
Qed.

(** Lines joined with line feeds are split back into the same lines. *)
Lemma splitlines_from_app (cur a s : string) :
  no_linebreak a = true ->
  splitlines_from cur (a ++ s) = splitlines_from (cur ++ a) s.
Proof.
  revert cur. induction a as [|x a IH]; intros cur Ha.
  - by rewrite string_app_nil_l, string_app_nil_r.
  - cbn [no_linebreak] in Ha. apply andb_prop in Ha as [Hx Ha].
    rewrite string_app_cons. cbn [splitlines_from].
    destruct (is_linebreak x); [done|].
    rewrite IH by done. by rewrite string_app_assoc.
Qed.

Lemma join_cons2 l l' ls :
  join newline (l :: l' :: ls) = (l ++ newline ++ join newline (l' :: ls))%string.
Proof. reflexivity. Qed.

Lemma join_nonempty l ls :
  is_empty l = false -> is_empty (join newline (l :: ls)) = false.
Proof.
  intros Hl. destruct ls as [|l' ls]; [done|].
  rewrite join_cons2. by destruct l.
Qed.

Lemma splitlines_join ls :
  Forall clean ls -> splitlines (join newline ls) = ls.
Proof.
  unfold splitlines.
  induction ls as [|l ls IH]; [done|]. intros Hls.
  apply Forall_cons in Hls as [(Hs & He & Hn) Hls].
  destruct ls as [|l' ls].
  - change (join newline [l]) with l.
    rewrite <- (string_app_nil_r l) at 1.
    rewrite splitlines_from_app by done. cbn [splitlines_from].
    rewrite string_app_nil_l. by rewrite He.
  - rewrite join_cons2. rewrite splitlines_from_app by done. rewrite string_app_nil_l.
    pose proof Hls as Hls'. apply Forall_cons in Hls' as [(_ & He' & _) _].
    pose proof (join_nonempty l' ls He') as Hj.
    specialize (IH Hls).
    destruct (join newline (l' :: ls)) as [|c s] eqn:Ej; [done|].
    unfold newline. rewrite string_app_cons, string_app_nil_l. cbn [splitlines_from].
    replace (is_linebreak (ascii_of_nat 10)) with true by done.
    replace (code (ascii_of_nat 10) =? 13)%N with false by done.
    cbn [andb]. f_equal. by rewrite <- IH.
Qed.

Lemma strip_join ls :
  Forall clean ls -> strip (join newline ls) = join newline ls.
Proof.
  intros Hls. destruct ls as [|l ls]; [done|].
  pose proof Hls as Hls'. apply Forall_cons in Hls' as [Hg _].
  assert (rstrip (join newline (l :: ls)) = join newline (l :: ls)) as Hr.
  { clear Hg. induction ls as [|l' ls IH] in l, Hls |- *.
    - apply Forall_cons in Hls as [Hg _]. by apply clean_last.
    - apply Forall_cons in Hls as [Hg Hls]. rewrite join_cons2.
      rewrite <- string_app_assoc. apply rstrip_app; [|by apply IH].
      apply join_nonempty. apply Forall_cons in Hls as [(_ & He & _) _]. done. }
  unfold strip.
  assert (lstrip (join newline (l :: ls)) = join newline (l :: ls)) as ->; [|done].
  pose proof (clean_first l Hg) as Hl. destruct Hg as (_ & He & _).
  destruct l as [|c l]; [done|].
  cbn [lstrip] in Hl.
  assert (exists r, join newline (String c l :: ls) = String c r) as [r ->].
  { destruct ls; [by eexists|]. rewrite join_cons2, string_app_cons. by eexists. }
  cbn [lstrip]. destruct (isspace c) eqn:Ec; [|done].
  exfalso.
  assert (forall s, String.length (lstrip s) <= String.length s)%nat as Hll.
  { clear. induction s as [|x s IH]; cbn [lstrip String.length]; [lia|].
    destruct (isspace x); cbn [String.length]; lia. }
  pose proof (Hll l) as H2. rewrite Hl in H2. cbn [String.length] in H2. lia.
Qed.

Lemma numbered_from_good idx ts :
  0 <= idx -> Forall clean ts ->
  Forall clean (numbered_from idx ts)
  /\ parse_lines (numbered_from idx ts) = ts.
Proof.
  intros Hi Hts. revert idx Hi.
  induction Hts as [|t ts Ht Hts IH]; intros idx Hi; [done|].
  cbn [numbered_from parse_lines].
  destruct (parse_numbered_line (idx + 1) t ltac:(lia) Ht) as (Hs & He & Hp & Hn).
  destruct (IH (idx + 1) ltac:(lia)) as [IH1 IH2].
  split.
  - apply Forall_cons. split; [by repeat split|done].
  - cbv zeta. rewrite Hs, He, Hp, IH2. done.
Qed.

Lemma take_dots_no_linebreak t : no_linebreak t = true -> take_dots t = t.
Proof.
  induction t as [|c t IH]; [done|]. cbn [no_linebreak take_dots]. intros H.
  apply andb_prop in H as [Hc Ht]. rewrite IH by done.
  destruct (N.eqb_spec (code c) 10) as [E|]; [|done].
  unfold is_linebreak in Hc. cbv zeta in Hc. by rewrite E in Hc.
Qed.

Lemma spaces_then_group_clean t : clean t -> spaces_then_group t = Some t.
Proof.
  intros Hcl. pose proof (clean_first t Hcl) as Hl.
  destruct Hcl as (_ & He & Hn). destruct t as [|c t]; [done|].
  cbn [spaces_then_group]. cbn [lstrip] in Hl.
  destruct (isspace c) eqn:Ec.
  - exfalso.
    assert (forall s, String.length (lstrip s) <= String.length s)%nat as Hll.
    { clear. induction s as [|x s IH]; cbn [lstrip String.length]; [lia|].
      destruct (isspace x); cbn [String.length]; lia. }
    pose proof (Hll t) as H2. rewrite Hl in H2. cbn [String.length] in H2. lia.
  - by rewrite take_dots_no_linebreak.
Qed.

Lemma digits_then_marker_app d t :
  all_ascii_digits d = true -> clean t ->
  digits_then_marker (d ++ ". " ++ t) = Some t.
Proof.
  intros Hd Hcl. induction d as [|c d IH].
  - rewrite string_app_nil_l.
    change (". " ++ t)%string with (String dot (String " " t)).
    cbn [digits_then_marker spaces_then_group].
    replace (is_ascii_digit dot) with false by done.
    replace (Ascii.eqb dot dot) with true by done. cbn [orb].
    replace (isspace " ") with true by done.
    by rewrite spaces_then_group_clean.
  - cbn [all_ascii_digits] in Hd. apply andb_prop in Hd as [Hc Hd].
    rewrite string_app_cons. cbn [digits_then_marker]. rewrite Hc. auto.
Qed.

(** The lenient loop reads the same line the same way. *)
Lemma recover_numbered_line k t :
  0 < k -> clean t -> recover_line (str_of_int k ++ ". " ++ t) = [t].
Proof.
  intros Hk Hcl. destruct (str_of_int_digits k Hk) as [Hd He].
  destruct (str_of_int k) as [|c d] eqn:E; [done|].
  cbn [all_ascii_digits] in Hd. apply andb_prop in Hd as [Hc Hd].
  unfold recover_line. rewrite string_app_cons.
  cbn [is_empty starts_with_digit match_numbered negb andb].
  rewrite (digit_is_digit c Hc), Hc. cbn [negb andb].
  rewrite digits_then_marker_app by done. by destruct Hcl as (-> & _).
Qed.

Lemma recover_lines_numbered idx ts :
  0 <= idx -> Forall clean ts -> recover_lines (numbered_from idx ts) = ts.
Proof.
  intros Hi Hts. revert idx Hi.
  induction Hts as [|t ts Ht Hts IH]; intros idx Hi; [done|].
  cbn [numbered_from recover_lines].
  destruct (parse_numbered_line (idx + 1) t ltac:(lia) Ht) as (Hs & _).
  rewrite Hs, recover_numbered_line, IH by (done || lia). done.
Qed.

Lemma non_empty_clean ts : Forall clean ts -> non_empty ts = ts.
Proof.
  unfold non_empty. induction 1 as [|t ts (_ & He & _) _ IH]; [done|].
  cbn [List.filter]. by rewrite He, IH.
Qed.

(** Both loops read the translations off an answer in the format of the
    prompt. *)
Lemma numbered_answer_lines ts :
  Forall clean ts ->
  parse_lines (splitlines (strip (numbered ts))) = ts
  /\ recover_lines (splitlines (strip (numbered ts))) = ts.
Proof.
  intros Hts. destruct (numbered_from_good 0 ts ltac:(lia) Hts) as [Hg Hp].
  unfold numbered.
  by rewrite strip_join, splitlines_join, Hp, recover_lines_numbered by (done || lia).
Qed.

(** X1. An answer in the format the prompt asks for, each line the number,
    a dot, a space and a translation that is not empty, has no white space
    around it and no line boundary in it, is returned as the list of these
    translations, whether or not their count is that of the lines sent. *)
Theorem translate_lines_reads_numbered_answer (lines ts : list string) :
  lines <> [] -> Forall clean ts ->
  translate_lines lines (numbered ts) = ts.
Proof.
  intros Hne Hts. destruct (numbered_answer_lines ts Hts) as [Hp Hr].
  unfold translate_lines. destruct lines as [|l lines]; [done|].
  cbv zeta. rewrite Hp, Hr.
  destruct (Nat.eqb_spec (length ts) (length (l :: lines))) as [E|Hlen];
    cbn [negb]; [done|].
  rewrite non_empty_clean by done. by destruct ts.
Qed.

Lemma translate_lines_reads_numbered_answer_witness :
  translate_lines ["Hello everyone."; "Welcome back."; "Goodbye."]
    (numbered ["Xin chao moi nguoi."; "Chao mung tro lai."])
  = ["Xin chao moi nguoi."; "Chao mung tro lai."].
Proof.
  apply translate_lines_reads_numbered_answer; [done|].
  repeat constructor.
Defined.

(** ** src/gemini_client.py: the number of translations *)

Lemma parse_lines_length ls : (List.length (parse_lines ls) <= List.length ls)%nat.
Proof.
  induction ls as [|l ls IH]; [done|]. cbn [parse_lines]. cbv zeta.
  destruct (is_empty (strip l)); cbn [List.length]; lia.
Qed.

Lemma recover_lines_length ls : (List.length (recover_lines ls) <= List.length ls)%nat.
Proof.
  induction ls as [|l ls IH]; [done|]. cbn [recover_lines].
  rewrite length_app. cbn [List.length].
  assert (List.length (recover_line (strip l)) <= 1)%nat; [|lia].
  unfold recover_line.
  repeat match goal with |- context [if ?b then _ else _] => destruct b end;
    try destruct (match_numbered _); cbn [List.length]; try lia;
    repeat match goal with |- context [if ?b then _ else _] => destruct b end;
    cbn [List.length]; lia.
Qed.

(** X2. Whatever the backend answers, [translate_lines] returns at most one
    translation for each line of the stripped answer. *)
Theorem translate_lines_at_most_one_per_line (lines : list string) (response_text : string) :
  (List.length (translate_lines lines response_text)
   <= List.length (splitlines (strip response_text)))%nat.
Proof.
  unfold translate_lines. destruct lines as [|l lines]; [cbn; lia|]. cbv zeta.
  pose proof (parse_lines_length (splitlines (strip response_text))) as Hp.
  pose proof (recover_lines_length (splitlines (strip response_text))) as Hr.
  destruct (negb _); [|done]. destruct (Nat.eqb _ _); [done|].
  unfold non_empty.
  pose proof (List.filter_length_le (fun t => negb (is_empty t))
                (parse_lines (splitlines (strip response_text)))) as Hf.
  destruct (List.filter _ _); [done|]. lia.
Qed.

(** ** src/pipeline.py: the language code of the file names *)

Lemma split_once_spec c s :
  (contains c s = false /\ split_once c s = [s])
  \/ exists d rest, contains c d = false /\ s = (d ++ String c rest)%string
                    /\ split_once c s = [d; rest].
Proof.
  induction s as [|x s IH]; [by left|].
  cbn [contains split_once]. destruct (Ascii.eqb_spec c x) as [<-|Hx].
  - right. by exists EmptyString, s.
  - destruct IH as [[H1 ->]|(d & rest & H1 & -> & ->)]; [by left|].
    right. exists (String x d), rest. cbn [contains].
    destruct (Ascii.eqb_spec c x); done.
Qed.

(** X3. The language code is the tag up to its first hyphen: it holds no
    hyphen, and the tag is the code alone or the code, a hyphen and a rest. *)
Theorem language_code_is_first_subtag (normalized_lang : string) :
  contains "-" (pipeline.language_code normalized_lang) = false
  /\ (normalized_lang = pipeline.language_code normalized_lang
      \/ exists rest,
           normalized_lang
           = (pipeline.language_code normalized_lang ++ "-" ++ rest)%string).
Proof.
  unfold pipeline.language_code.
  destruct (split_once_spec "-" normalized_lang)
    as [[H1 ->]|(d & rest & H1 & E & ->)]; [by split; [|left]|].
  split; [done|]. right. by exists rest.
Qed.

(** X4. Two tags with the same code before the first hyphen get the same
    suffix in the names of the files: the underscore and this code. *)
Theorem lang_suffix_ignores_the_region (code rest rest' : string) :
  contains "-" code = false ->
  pipeline.language_code (code ++ "-" ++ rest) = code
  /\ pipeline.lang_suffix (code ++ "-" ++ rest) = ("_" ++ code)%string
  /\ pipeline.lang_suffix (code ++ "-" ++ rest)
     = pipeline.lang_suffix (code ++ "-" ++ rest').
Proof.
  intros Hc.
  assert (forall r, pipeline.language_code (code ++ "-" ++ r) = code) as Hl.
  { intros r. unfold pipeline.language_code.
    change ("-" ++ r)%string with (String "-" r). by rewrite split_once_at. }
  assert (forall r, pipeline.lang_suffix (code ++ "-" ++ r) = ("_" ++ code)%string) as Hs.
  { intros r. unfold pipeline.lang_suffix. rewrite Hl.
    by destruct code. }
  by rewrite !Hs, Hl.
Qed.

Lemma lang_suffix_ignores_the_region_witness :
  pipeline.language_code ("zh" ++ "-" ++ "CN") = "zh"
  /\ pipeline.lang_suffix ("zh" ++ "-" ++ "CN") = ("_" ++ "zh")%string
  /\ pipeline.lang_suffix ("zh" ++ "-" ++ "CN")
     = pipeline.lang_suffix ("zh" ++ "-" ++ "TW").
Proof. apply lang_suffix_ignores_the_region. reflexivity. Defined.

(** ** main.py: the targets *)

Lemma lstrip_length s : (String.length (lstrip s) <= String.length s)%nat.
Proof.
  induction s as [|x s IH]; cbn [lstrip String.length]; [lia|].
  destruct (isspace x); cbn [String.length]; lia.
Qed.

Lemma lstrip_head c s : lstrip (String c s) = String c s -> isspace c = false.
Proof.
  cbn [lstrip]. destruct (isspace c); [|done]. intros E.
  pose proof (lstrip_length s) as H. rewrite E in H. cbn [String.length] in H. lia.
Qed.

Lemma lstrip_cases s :
  lstrip s = EmptyString
  \/ exists c r, lstrip s = String c r /\ isspace c = false.
Proof.
  induction s as [|x s IH]; [by left|]. cbn [lstrip].
  destruct (isspace x) eqn:E; [done|]. right. by eexists _, _.
Qed.

Lemma rstrip_cons x s :
  rstrip (String x s)
  = match rstrip s with
    | EmptyString => if isspace x then EmptyString else String x EmptyString
    | r => String x r
    end.
Proof. reflexivity. Qed.

Lemma rstrip_idem s : rstrip (rstrip s) = rstrip s.
Proof.
  induction s as [|x s IH]; [done|]. rewrite rstrip_cons.
  destruct (rstrip s) as [|y r] eqn:E.
  - destruct (isspace x) eqn:Ex; [done|]. cbn [rstrip]. by rewrite Ex.
  - by rewrite rstrip_cons, IH.
Qed.

Lemma rstrip_head c s :
  isspace c = false -> exists r, rstrip (String c s) = String c r.
Proof.
  intros Hc. cbn [rstrip]. destruct (rstrip s); [rewrite Hc|]; by eexists.
Qed.

Lemma strip_idem s : strip (strip s) = strip s.
Proof.
  unfold strip. destruct (lstrip_cases s) as [->|(c & r & -> & Hc)]; [done|].
  destruct (rstrip_head c r Hc) as [r' E]. rewrite E.
  cbn [lstrip]. rewrite Hc. by rewrite <- E, rstrip_idem.
Qed.

Lemma contains_lstrip c s : contains c s = false -> contains c (lstrip s) = false.
Proof.
  induction s as [|x s IH]; [done|]. cbn [lstrip]. destruct (isspace x); [|done].
  cbn [contains]. destruct (Ascii.eqb c x); [done|]. apply IH.
Qed.

Lemma contains_rstrip c s : contains c s = false -> contains c (rstrip s) = false.
Proof.
  induction s as [|x s IH]; [done|]. cbn [contains rstrip].
  destruct (Ascii.eqb c x) eqn:E; [done|]. intros H. specialize (IH H).
  destruct (rstrip s); [destruct (isspace x)|]; cbn [contains]; by rewrite ?E.
Qed.

Lemma split_parts c s : Forall (fun p => contains c p = false) (main.split c s).
Proof.
  induction s as [|x s IH]; [by repeat constructor|]. cbn [main.split].
  destruct (Ascii.eqb c x) eqn:E; [by constructor|].
  destruct (main.split c s) as [|p ps]; [done|].
  apply Forall_cons in IH as [Hp Hps]. constructor; [|done].
  cbn [contains]. by rewrite E.
Qed.

Lemma stripped_codes_are_codes (parts : list string) :
  Forall (fun p => contains "," p = false) parts ->
  Forall is_code (main.stripped_codes parts).
Proof.
  induction 1 as [|p ps Hp _ IH]; [done|]. cbn [main.stripped_codes].
  destruct (is_empty (strip p)) eqn:E; [done|]. constructor; [|done].
  split; [done|]. split; [apply strip_idem|].
  unfold strip. by apply contains_rstrip, contains_lstrip.
Qed.





(** ** src/config.py, main.py and src/pipeline.py: the language of a run *)

Lemma targets_elements (target_langs target_lang : option string) (t : option string) :
  t ∈ main.targets target_langs target_lang ->
  t = None \/ exists s, t = Some s /\ is_empty s = false.
Proof.
  assert (forall tl, t ∈ (if main.given tl then [tl] else [None]) ->
            t = None \/ exists s, t = Some s /\ is_empty s = false) as Hg.
  { intros [s|]; cbn [main.given].
    - destruct (is_empty s) eqn:E; cbn [negb]; intros ->%list_elem_of_singleton;
        [by left|right; by exists s].
    - intros ->%list_elem_of_singleton. by left. }
  unfold main.targets. destruct target_langs as [langs|]; [|apply Hg].
  destruct (is_empty langs) eqn:El; [apply Hg|].
  pose proof (stripped_codes_are_codes _ (split_parts "," langs)) as Hc.
  intros (c & -> & Hin)%list_elem_of_fmap. right. exists c. split; [done|].
  rewrite Forall_forall in Hc. by destruct (Hc c Hin).
Qed.

(** X6. With a configuration that loads, the language of a run is empty for
    one cause alone: no target on the command line and a [TARGET_LANGUAGE]
    that is set to the empty string. *)
Theorem run_language_is_empty_iff
    (env : gmap string string) (cfg : config.AppConfig)
    (target_langs target_lang t : option string) :
  config.load_config env = Some cfg ->
  t ∈ main.targets target_langs target_lang ->
  is_empty (pipeline.normalized_lang t (config.target_language cfg)) = true
  <-> t = None /\ env !! "TARGET_LANGUAGE" = Some EmptyString.
Proof.
  intros Hcfg Ht.
  assert (config.target_language cfg
          = default "vi" (env !! "TARGET_LANGUAGE")) as ->.
  { unfold config.load_config, config.getenv, config.getenv_or in Hcfg.
    destruct (env !! "GEMINI_API_KEY") as [k|]; [|done].
    destruct (is_empty k); [done|]. by injection Hcfg as <-. }
  destruct (targets_elements _ _ _ Ht) as [->|(s & -> & Hs)].
  - unfold pipeline.normalized_lang, pipeline.or_else.
    destruct (env !! "TARGET_LANGUAGE") as [[|c l]|]; cbn [default is_empty];
      split; try done; by intros [_ [=]].
  - unfold pipeline.normalized_lang, pipeline.or_else. rewrite Hs, Hs.
    split; [done|]. by intros [[=] _].
Qed.

Lemma run_language_is_empty_iff_witness :
  is_empty
    (pipeline.normalized_lang None
       (config.target_language
          {| config.gemini_api_key := "key";
             config.gemini_model := "gemini-1.5-flash";
             config.target_language := "" |})) = true
  <-> @None string = None
      /\ ({["GEMINI_API_KEY" := "key"; "TARGET_LANGUAGE" := ""]} : gmap string string)
           !! "TARGET_LANGUAGE" = Some EmptyString.
Proof.
  apply (run_language_is_empty_iff _ _ None None).
  - vm_compute. reflexivity.
  - vm_compute. left.
Defined.

(** ** src/transcription.py: the timestamp outside its range *)

Lemma is_hh_mm_ss_mmm_inv s :
  is_hh_mm_ss_mmm s = true ->
  exists h1 h2 rest,
    s = String h1 (String h2 (String ":" rest)) /\ is_ascii_digit h1 = true.
Proof.
  intros H.
  do 12 (destruct s as [|? s]; [discriminate H|]).
  destruct s; [|discriminate H].
  cbn [is_hh_mm_ss_mmm forallb] in H.
  repeat match type of H with (_ && _ = true) => apply andb_prop in H as [H ?] end.
  match goal with Hc : Ascii.eqb ?c ":" = true |- context [String _ (String _ (String ?c _))] =>
    apply Ascii.eqb_eq in Hc; subst c end.
  by eexists _, _, _.
Qed.

Lemma digits_all_ascii n : all_ascii_digits (digits n) = true.
Proof.
  unfold digits, NilZero.string_of_uint.
  destruct (N.to_uint n) eqn:E; try done; rewrite <- E; apply nil_empty_digits.
Qed.

(** From one hundred on a number has three digits or more. *)
Lemma digits_of_hundred n :
  (100 <= n)%N ->
  exists a b c rest, digits n = String a (String b (String c rest))
                     /\ is_ascii_digit c = true.
Proof.
  intros Hn. pose proof (digits_all_ascii n) as Hd.
  unfold digits in *.
  pose proof (DecimalN.Unsigned.of_to n) as Hof.
  assert (forall d, match NilZero.string_of_uint d with
                    | String _ (String _ (String _ _)) => True
                    | _ => (N.of_uint d < 100)%N
                    end) as Hshort.
  { clear. intros d. unfold NilZero.string_of_uint.
    destruct d as [|d|d|d|d|d|d|d|d|d|d]; try (vm_compute; done);
    destruct d as [|d|d|d|d|d|d|d|d|d|d]; try (vm_compute; done);
    destruct d as [|d|d|d|d|d|d|d|d|d|d]; try (vm_compute; done);
    done. }
  specialize (Hshort (N.to_uint n)). rewrite Hof in Hshort.
  destruct (NilZero.string_of_uint (N.to_uint n)) as [|a [|b [|c rest]]]; try lia.
  cbn [all_ascii_digits] in Hd.
  apply andb_prop in Hd as [_ Hd]. apply andb_prop in Hd as [_ Hd].
  apply andb_prop in Hd as [Hc _]. by eexists _, _, _, _.
Qed.

(** X7. The timestamp has the form [dd:dd:dd,ddd] exactly for the counts from
    zero to one millisecond below one hundred hours. *)
Theorem format_millis_form_iff_in_range (m : Z) :
  is_hh_mm_ss_mmm (format_millis m) = true <-> 0 <= m < hundred_hours_ms.
Proof.
  split.
  - intros H. apply is_hh_mm_ss_mmm_inv in H as (h1 & h2 & rest & E & Hh1).
    unfold format_millis, Py.divmod in E. cbv zeta in E.
    unfold hundred_hours_ms.
    destruct (Z.ltb_spec (m / 3600000) 0) as [Hneg|Hpos].
    + exfalso. unfold format_0d in E. destruct (Z.ltb_spec (m / 3600000) 0); [|lia].
      rewrite string_app_cons in E. injection E as <- _. done.
    + split.
      { destruct (Z.lt_ge_cases m 0); [|lia].
        assert (m / 3600000 < 0) by (apply Z.div_lt_upper_bound; lia). lia. }
      destruct (Z.ltb_spec (m / 3600000) 100) as [Hlt|Hge].
      { destruct (Z.lt_ge_cases m 360000000); [done|].
        assert (100 <= m / 3600000) by (apply Z.div_le_lower_bound; lia). lia. }
      exfalso. unfold format_0d at 1 in E.
      destruct (Z.ltb_spec (m / 3600000) 0); [lia|].
      destruct (digits_of_hundred (Z.abs_N (m / 3600000)) ltac:(lia))
        as (a & b & c & r & Ed & Hc).
      rewrite Ed in E. cbn [String.length Nat.sub zeros] in E.
      rewrite string_app_nil_l, !string_app_cons in E. injection E as _ _ -> _. done.
  - intros Hm. destruct (format_millis_shape m Hm) as [-> H]. done.
Qed.

(** ** src/transcription.py: [transcribe_audio] *)

Lemma transcribe_from_lookup (i0 : Z) (entries : list WhisperSegment) (i : nat) :
  transcribe_from i0 entries !! i
  = (fun e => transcribed (i0 + Z.of_nat i) (w_start e) (w_end e) (w_text e))
      <$> entries !! i.
Proof.
  revert i0 i. induction entries as [|e entries IH]; intros i0 i; [done|].
  destruct i as [|i]; cbn [transcribe_from].
  - cbn. by rewrite Z.add_0_r.
  - rewrite !lookup_cons. rewrite IH. by replace (i0 + 1 + Z.of_nat i) with (i0 + Z.of_nat (S i)) by lia.
Qed.

Lemma transcribe_from_length (i0 : Z) (entries : list WhisperSegment) :
  List.length (transcribe_from i0 entries) = List.length entries.
Proof.
  revert i0. induction entries as [|e entries IH]; intros i0; [done|].
  cbn [transcribe_from List.length]. by rewrite IH.
Qed.

(** X8. [transcribe_audio] keeps the entries of the result in their order,
    one segment each: the segment at position [i], counted from zero, has
    the index [i + 1], the times of the entry and its text stripped, and
    neither a translation nor achieved times. A result without the key
    ["segments"] gives no segment. *)
Theorem transcribe_audio_numbers_in_order (entries : list WhisperSegment) (i : nat) :
  transcribe_audio None = []
  /\ List.length (transcribe_audio (Some entries)) = List.length entries
  /\ transcribe_audio (Some entries) !! i
     = (fun e => transcribed (Z.of_nat i + 1) (w_start e) (w_end e) (w_text e))
         <$> entries !! i.
Proof.
  split; [done|]. unfold transcribe_audio. cbn [default]. split.
  - apply transcribe_from_length.
  - rewrite transcribe_from_lookup. by rewrite Z.add_comm.
Qed.

(** ** src/transcription.py: [write_srt] before translation *)

Lemma selected_text_untranslated (seg : SubtitleSegment) :
  truthy (translated_text seg) = false ->
  selected_text true seg = selected_text false seg.
Proof.
  unfold selected_text, truthy. destruct (translated_text seg) as [t|]; [|done].
  cbn [andb]. by destruct (is_empty t).
Qed.

(** X9. When no segment has a translation that is not empty, the file
    written for the translated text is the file written for the original
    text, with either timing. *)
Theorem write_srt_without_translation
    (segments : list SubtitleSegment) (path : string)
    (use_actual_timing : bool) (fs : gmap string string) :
  Forall (fun seg => truthy (translated_text seg) = false) segments ->
  write_srt segments path true use_actual_timing fs
  = write_srt segments path false use_actual_timing fs.
Proof.
  intros HF. unfold write_srt. f_equal.
  generalize (@nil string). induction HF as [|seg rest Hseg _ IH]; intros lines; [done|].
  cbn [write_srt_loop]. rewrite (selected_text_untranslated seg Hseg).
  destruct (is_empty (selected_text false seg)); [apply IH|].
  destruct (timing_line use_actual_timing seg); [|done]. cbn. apply IH.
Qed.

Lemma write_srt_without_translation_witness :
  write_srt scene "out.srt" true true ∅ = write_srt scene "out.srt" false true ∅.
Proof.
  apply write_srt_without_translation. repeat constructor.
Defined.

(** ** src/tts.py: the temporary files *)

Lemma str_of_int_inj (a b : Z) : str_of_int a = str_of_int b -> a = b.
Proof.
  unfold str_of_int. intros E. apply DecimalZ.to_int_inj.
  assert (forall z, NilZero.int_of_string (NilZero.string_of_int (Z.to_int z))
                    = Some (Z.to_int z)) as Hisi.
  { intros z. apply NilZero.isi; destruct z as [|p|p]; cbn; try done;
      intros [= Hp]; by apply (DecimalPos.Unsigned.to_uint_nonnil p). }
  pose proof (Hisi a) as Ha. rewrite E, Hisi in Ha. by injection Ha.
Qed.

Lemma string_length_app (a b : string) :
  String.length (a ++ b) = (String.length a + String.length b)%nat.
Proof. induction a as [|x a IH]; [done|]. rewrite string_app_cons. cbn. by rewrite IH. Qed.

Lemma string_app_inv_r (a b s : string) : (a ++ s = b ++ s)%string -> a = b.
Proof.
  revert b. induction a as [|x a IH]; intros [|y b] E; [done| | |].
  - apply (f_equal String.length) in E. rewrite !string_length_app in E.
    cbn [String.length] in E. lia.
  - apply (f_equal String.length) in E. rewrite !string_length_app in E.
    cbn [String.length] in E. lia.
  - rewrite !string_app_cons in E. injection E as -> E. f_equal. by apply IH.
Qed.

(** X10. Two segments are synthesized through the same temporary file
    exactly when they have the same index. *)
Theorem temp_file_name_same_iff_same_index (a b : SubtitleSegment) :
  temp_file_name a = temp_file_name b <-> index a = index b.
Proof.
  unfold temp_file_name. split; [|by intros ->].
  intros E. apply str_of_int_inj.
  change (".seg" ++ ?x)%string with (String "." (String "s" (String "e" (String "g" x)))) in E.
  injection E as E. by apply string_app_inv_r in E.
Qed.

(** ** From the transcription to the translated segments *)

Lemma assign_translations_translated segments translated_lines :
  List.map translated_text (pipeline.assign_translations segments translated_lines)
  = ((Some <$> take (List.length segments) translated_lines)
     ++ List.map translated_text (drop (List.length translated_lines) segments))%list.
Proof.
  revert translated_lines.
  induction segments as [|seg rest IH]; intros [|t ts]; try done.
  cbn [pipeline.assign_translations List.map List.length take drop fmap list_fmap app].
  by rewrite IH.
Qed.

Lemma transcribe_from_untranslated (i0 : Z) (entries : list WhisperSegment) (k : nat) :
  List.map translated_text (drop k (transcribe_from i0 entries))
  = replicate (List.length entries - k) None.
Proof.
  revert i0 k. induction entries as [|e entries IH]; intros i0 k.
  - by destruct k.
  - destruct k as [|k]; cbn [transcribe_from drop List.length Nat.sub].
    + specialize (IH (i0 + 1) 0%nat). rewrite drop_0, Nat.sub_0_r in IH.
      cbn [List.map replicate]. by rewrite IH.
    + apply IH.
Qed.

(** X11. From the result of the transcription to the translated segments:
    when the backend answers in the format of the prompt with clean
    translations, the segments get these translations in order, one each,
    as far as they go; the segments beyond the last translation have none,
    and the translations beyond the last segment are dropped. *)
Theorem translations_reach_the_segments
    (entries : list WhisperSegment) (ts : list string) :
  Forall clean ts ->
  List.map translated_text
    (pipeline.translate_stage (transcribe_audio (Some entries)) (numbered ts))
  = ((Some <$> take (List.length entries) ts)
     ++ replicate (List.length entries - List.length ts) None)%list.
Proof.
  intros Hts. unfold pipeline.translate_stage, transcribe_audio.
  cbv [from_option id]. cbv zeta.
  rewrite assign_translations_translated, transcribe_from_length.
  destruct entries as [|e entries]; [done|].
  assert (translate_lines (List.map text (transcribe_from 1 (e :: entries))) (numbered ts)
          = ts) as ->.
  { destruct (numbered_answer_lines ts Hts) as [Hp Hr].
    unfold translate_lines. cbn [transcribe_from List.map]. cbv zeta. rewrite Hp, Hr.
    destruct (Nat.eqb _ _); cbn [negb]; [done|].
    rewrite non_empty_clean by done. by destruct ts. }
  by rewrite transcribe_from_untranslated.
Qed.

Lemma translations_reach_the_segments_witness :
  List.map translated_text
    (pipeline.translate_stage (transcribe_audio (Some scene_entries))
       (numbered ["Xin chao moi nguoi."; "Chao mung tro lai."]))
  = ((Some <$> take (List.length scene_entries)
                 ["Xin chao moi nguoi."; "Chao mung tro lai."])
     ++ replicate
          (List.length scene_entries
           - List.length ["Xin chao moi nguoi."; "Chao mung tro lai."])
          None)%list.
Proof. apply translations_reach_the_segments. repeat constructor. Defined.

(** ** src/tts.py: [synthesize_translated_audio] as a whole *)

Lemma insert_by_Permutation {X : Type} (key : X -> float) (x : X) (l : list X) :
  insert_by key x l ≡ₚ x :: l.
Proof.
  induction l as [|y l IH]; cbn [insert_by]; [done|].
  destruct (key y <? key x)%float; [|done].
  rewrite IH. apply perm_swap.
Qed.

Lemma sorted_Permutation {X : Type} (key : X -> float) (l : list X) :
  sorted key l ≡ₚ l.
Proof.
  induction l as [|x l IH]; cbn [sorted]; [done|].
  by rewrite insert_by_Permutation, IH.
Qed.

Section Synthesis.
Context {A : Type} `{AudioOps A}.

(** X12. When no segment has a translation that is not empty, nothing is
    synthesized: the one result is the track of no clip, the silence of no
    duration, and on the shared segments no achieved time is written. *)
Theorem nothing_to_synthesize (synthesize : SubtitleSegment -> A)
    (segments : list SubtitleSegment) :
  Forall (fun seg => truthy (translated_text seg) = false) segments ->
  (forall out, synthesize_translated_audio synthesize segments out <-> out = empty_track)
  /\ (forall pieces,
        collected_at synthesize segments pieces ->
        synthesize_at segments pieces
        = Some (segments, silent 0, seconds (len (silent 0 : A)))).
Proof.
  intros HF.
  assert (ordered_segments segments = []) as Ho.
  { unfold ordered_segments.
    replace (List.filter _ segments) with (@nil SubtitleSegment); [done|].
    induction HF as [|seg rest Hs _ IH]; [done|]. cbn [List.filter]. by rewrite Hs. }
  assert (ordered_refs segments = []) as Hr.
  { unfold ordered_refs.
    replace (List.filter _ _) with (@nil nat); [done|].
    assert (forall i, translated_at segments i = false) as Hi.
    { intros i. unfold translated_at. destruct (segments !! i) as [seg|] eqn:E; [|done].
      by apply (Forall_lookup_1 _ _ _ _ HF E). }
    induction (seq 0 (List.length segments)) as [|i l IH]; [done|].
    cbn [List.filter]. by rewrite Hi. }
  split.
  - intros out. unfold synthesize_translated_audio, collected. rewrite Ho. cbn [List.map].
    split.
    + intros (pieces & Hp & Ha). apply Permutation_nil_r in Hp as ->.
      cbn in Ha. by injection Ha as <-.
    + intros ->. by exists [].
  - intros pieces. unfold collected_at. rewrite Hr. cbn [omap].
    by intros ->%Permutation_nil_r.
Qed.

(** X13. When the starts of the translated segments are strictly apart, no
    two equal and none a NaN, the assembly is the same for every order in
    which the futures complete. *)
Theorem synthesis_ignores_completion_order (synthesize : SubtitleSegment -> A)
    (segments : list SubtitleSegment) (pieces pieces' : list (SubtitleSegment * A)) :
  all_apart (List.map start (ordered_segments segments)) ->
  collected synthesize segments pieces ->
  collected synthesize segments pieces' ->
  arrange pieces = arrange pieces'.
Proof.
  unfold collected. intros Ha Hp Hp'.
  apply arrange_any_completion_order; [by rewrite Hp, Hp'|].
  eapply all_apart_perm; [|exact Ha].
  rewrite Hp. by rewrite map_map.
Qed.

(** *** The segments as shared objects *)

Lemma nominal_set_actual seg a b : nominal (set_actual seg a b) = nominal seg.
Proof. done. Qed.

Lemma adjust_nominal (seg seg' : SubtitleSegment) (piece : A) :
  nominal seg = nominal seg' -> adjust seg piece = adjust seg' piece.
Proof. unfold nominal, adjust. by intros [= _ -> -> _ _]. Qed.

(** The loop keeps the list as long as it was, changes no field but the
    achieved times, leaves the segments without a piece as they were and
    gives achieved times to each segment that has a piece. *)
Lemma arrange_loop_at_spec (ps : list (nat * A)) pos audio
    (segments segments' : list SubtitleSegment) pos' audio' :
  arrange_loop_at ps pos audio segments = Some (segments', pos', audio') ->
  List.length segments' = List.length segments
  /\ List.map nominal segments' = List.map nominal segments
  /\ (forall i, i ∉ List.map fst ps -> segments' !! i = segments !! i)
  /\ (forall i seg', i ∈ List.map fst ps -> segments' !! i = Some seg' ->
        is_Some (actual_start seg') /\ is_Some (actual_end seg')).
Proof.
  revert pos audio segments.
  induction ps as [|[i piece] ps IH]; intros pos audio segments Hrun.
  - injection Hrun as <- _ _. split; [done|]. split; [done|]. split; [done|].
    intros j s Hj. by apply elem_of_nil in Hj.
  - cbn [arrange_loop_at] in Hrun.
    destruct (segments !! i) as [seg|] eqn:Ei; [|done]. cbn in Hrun.
    destruct (adjust seg piece) as [adjusted|]; [|done]. cbn in Hrun.
    apply IH in Hrun as (Hl & Hn & Hout & Hin).
    rewrite length_insert in Hl. split; [done|]. split; [|split].
    + rewrite Hn. rewrite list_fmap_insert, nominal_set_actual.
      apply list_insert_id. by rewrite list_lookup_fmap, Ei.
    + intros j Hj. cbn [List.map fst] in Hj.
      apply not_elem_of_cons in Hj as [Hji Hj].
      rewrite (Hout j Hj). by apply list_lookup_insert_ne.
    + intros j seg' Hj Hs. cbn [List.map fst] in Hj.
      destruct (decide (j ∈ List.map fst ps)) as [Hjp|Hjp]; [by apply (Hin j)|].
      apply elem_of_cons in Hj as [->|Hj]; [|done].
      rewrite (Hout i Hjp) in Hs.
      rewrite list_lookup_insert_eq in Hs by (by apply lookup_lt_Some in Ei).
      injection Hs as <-. cbn. by split; eexists.
Qed.

Lemma ordered_refs_elem (segments : list SubtitleSegment) (i : nat) :
  i ∈ ordered_refs segments <-> translated_at segments i = true.
Proof.
  unfold ordered_refs. rewrite sorted_Permutation.
  rewrite list_elem_of_In, List.filter_In, <- list_elem_of_In, elem_of_seq.
  split; [by intros [_ ?]|]. intros Ht. split; [|done].
  unfold translated_at in Ht. destruct (segments !! i) eqn:E; [|done].
  apply lookup_lt_Some in E. lia.
Qed.

Lemma collected_at_refs (synthesize : SubtitleSegment -> A)
    (segments : list SubtitleSegment) (pieces : list (nat * A)) (i : nat) :
  collected_at synthesize segments pieces ->
  i ∈ List.map fst pieces <-> translated_at segments i = true.
Proof.
  unfold collected_at. intros Hp. rewrite <- ordered_refs_elem.
  change (List.map fst pieces) with (fst <$> pieces).
  rewrite Hp, list_elem_of_fmap. split.
  - intros ([j a] & -> & Hja). apply list_elem_of_omap in Hja as (k & Hk & Hf).
    destruct (segments !! k); [|done]. cbn in Hf. by injection Hf as <- _.
  - intros Hi. pose proof Hi as Ht. apply ordered_refs_elem in Ht.
    unfold translated_at in Ht. destruct (segments !! i) as [seg|] eqn:E; [|done].
    exists (i, synthesize seg). split; [done|].
    apply list_elem_of_omap. exists i. split; [done|]. by rewrite E.
Qed.

(** X14. On segments that come without achieved times, a run of the synthesis
    that ends leaves the list as long as it was and every field from the
    transcription and the translation as it was, and it has written the
    achieved times of exactly the segments whose translation is not empty:
    the others still have none. *)
Theorem achieved_times_iff_translated (synthesize : SubtitleSegment -> A)
    (segments segments' : list SubtitleSegment) (pieces : list (nat * A))
    (track : A) (duration : float) :
  Forall unplaced segments ->
  collected_at synthesize segments pieces ->
  synthesize_at segments pieces = Some (segments', track, duration) ->
  List.map nominal segments' = List.map nominal segments
  /\ forall i seg', segments' !! i = Some seg' ->
       if truthy (translated_text seg')
       then is_Some (actual_start seg') /\ is_Some (actual_end seg')
       else unplaced seg'.
Proof.
  intros Hfresh Hcol Hrun. unfold synthesize_at in Hrun.
  destruct (arrange_loop_at _ 0 [] segments) as [[[segs pos] audio]|] eqn:El;
    [|done].
  cbn in Hrun. injection Hrun as <- _ _.
  apply arrange_loop_at_spec in El as (Hl & Hn & Hout & Hin).
  split; [done|]. intros i seg' Hi.
  assert (exists seg, segments !! i = Some seg /\ nominal seg' = nominal seg)
    as (seg & Hseg & Hnom).
  { apply (f_equal (fun l => l !! i)) in Hn.
    change (List.map nominal) with (fmap (M:=list) nominal) in Hn.
    rewrite !list_lookup_fmap, Hi in Hn.
    destruct (segments !! i) as [seg|]; [|done]. exists seg. split; [done|].
    change (Some (nominal seg') = Some (nominal seg)) in Hn. congruence. }
  assert (translated_text seg' = translated_text seg) as Ht
    by (unfold nominal in Hnom; by injection Hnom).
  assert (i ∈ List.map fst (sorted (fun sp => start_at segments (fst sp)) pieces)
          <-> translated_at segments i = true) as Hrefs.
  { rewrite <- (collected_at_refs synthesize segments pieces i Hcol).
    change (i ∈ fst <$> sorted (fun sp => start_at segments (fst sp)) pieces
            <-> i ∈ fst <$> pieces).
    by rewrite sorted_Permutation. }
  unfold translated_at in Hrefs. rewrite Hseg in Hrefs.
  rewrite Ht. destruct (truthy (translated_text seg)) eqn:Etr.
  - apply (Hin i); [by apply Hrefs|done].
  - assert (i ∉ List.map fst (sorted (fun sp => start_at segments (fst sp)) pieces))
      as Hni by (intros Hx; by apply Hrefs in Hx).
    rewrite (Hout i Hni), Hseg in Hi. injection Hi as <-.
    by apply (Forall_lookup_1 _ _ _ _ Hfresh Hseg).
Qed.

End Synthesis.

Lemma nothing_to_synthesize_witness :
  (forall out, synthesize_translated_audio tie_synthesize scene out <-> out = empty_track)
  /\ (forall pieces,
        collected_at tie_synthesize scene pieces ->
        synthesize_at scene pieces
        = Some (scene, silent 0, seconds (len (silent 0 : Clip)))).
Proof. apply nothing_to_synthesize. repeat constructor. Defined.

Lemma synthesis_ignores_completion_order_witness :
  arrange scenario_first_two = arrange scenario_two_first.
Proof.
  apply (synthesis_ignores_completion_order tie_synthesize [scenario_1; scenario_2]).
  - vm_compute. repeat constructor.
  - unfold collected. reflexivity.
  - unfold collected. apply perm_swap.
Defined.

Lemma achieved_times_iff_translated_witness :
  exists segments' track duration,
    synthesize_at scene_answered scene_pieces = Some (segments', track, duration)
    /\ List.map nominal segments' = List.map nominal scene_answered
    /\ forall i seg', segments' !! i = Some seg' ->
         if truthy (translated_text seg')
         then is_Some (actual_start seg') /\ is_Some (actual_end seg')
         else unplaced seg'.
Proof.
  destruct (synthesize_at scene_answered scene_pieces) as [[[segments' track] duration]|]
    eqn:E; [|vm_compute in E; discriminate].
  exists segments', track, duration. split; [reflexivity|].
  apply (achieved_times_iff_translated tie_synthesize scene_answered segments'
           scene_pieces track duration).
  - vm_compute. repeat constructor.
  - unfold collected_at. vm_compute. apply perm_swap.
  - exact E.
Defined.

(** ** src/tts.py: a span that is not positive *)

Lemma binary_normalize_nonpos z e :
  z <= 0 -> sf_nonpos (binary_normalize prec emax z e false).
Proof.
  intros Hz. destruct z as [|p|p]; [done|lia|].
  cbn [binary_normalize]. unfold binary_round. destruct (shl_align _ _ _) as [mz ez].
  pose proof (binary_round_aux_signed true (Z.pos mz) ez loc_Exact ltac:(lia)) as Hs.
  by destruct (binary_round_aux _ _ _ _ _ _) as [s|s| |s m e']; cbn in *; subst.
Qed.

(** The mantissa of a canonical float has at most 53 digits, and exactly 53
    above the least exponent. *)
Lemma bounded_mantissa m e :
  bounded prec emax m e = true ->
  Z.pos m < 2 ^ 53 /\ (-1074 < e -> 2 ^ 52 <= Z.pos m).
Proof.
  intros Hb. destruct (bounded_inv _ _ Hb) as (Hc & _ & Hl).
  rewrite fexp_eq in Hc.
  pose proof (Zdigits2_bounds (Z.pos m) ltac:(lia)) as [Hlo Hhi].
  split.
  - eapply Z.lt_le_trans; [exact Hhi|]. apply Z.pow_le_mono_r; lia.
  - intros He. replace (Zdigits2 (Z.pos m)) with 53 in Hlo by lia. exact Hlo.
Qed.

(** Canonical mantissas aligned to the lower exponent compare as the
    exponents do. *)
Lemma aligned_lt m1 e1 m2 e2 :
  bounded prec emax m1 e1 = true ->
  bounded prec emax m2 e2 = true ->
  e1 < e2 ->
  Z.pos (fst (shl_align m1 e1 (Z.min e1 e2)))
  < Z.pos (fst (shl_align m2 e2 (Z.min e1 e2))).
Proof.
  intros H1 H2 He.
  destruct (bounded_mantissa _ _ H1) as [Hm1 _].
  destruct (bounded_mantissa _ _ H2) as [_ Hm2].
  destruct (bounded_inv _ _ H1) as (_ & _ & Hl1).
  specialize (Hm2 ltac:(lia)).
  destruct (shl_align_below m1 e1 (Z.min e1 e2)) as [-> _]; [lia|].
  destruct (shl_align_below m2 e2 (Z.min e1 e2)) as [-> _]; [lia|].
  replace (e1 - Z.min e1 e2) with 0 by lia.
  assert (2 ^ 1 <= 2 ^ (e2 - Z.min e1 e2)) by (apply Z.pow_le_mono_r; lia).
  change (2 ^ 1) with 2 in *. change (2 ^ 0) with 1. nia.
Qed.

Lemma aligned_eq m e : fst (shl_align m e (Z.min e e)) = m.
Proof. by rewrite shl_align_above by lia. Qed.

Lemma SFsub_nonpos x y :
  valid_binary x = true -> valid_binary y = true ->
  SFleb x y = true -> sf_nonpos (SFsub prec emax x y).
Proof.
  intros Vx Vy Hle.
  destruct x as [sx|sx| |sx mx ex], y as [sy|sy| |sy my ey]; try done;
    try (by destruct sx, sy).
  cbn [valid_binary] in Vx, Vy. cbn [SFsub]. apply binary_normalize_nonpos.
  unfold SFleb, SFcompare in Hle.
  destruct sx, sy; cbn [cond_Zopp]; try done; try lia.
  - destruct (Z.compare_spec ex ey) as [->|Hlt|Hgt]; [|done|].
    + rewrite !aligned_eq.
      change (Pos.compare_cont Eq mx my) with (Pos.compare mx my) in Hle.
      destruct (Pos.compare_spec mx my); cbn in Hle; try done; lia.
    + pose proof (aligned_lt my ey mx ex Vy Vx Hgt) as Hal.
      rewrite (Z.min_comm ey ex) in Hal. lia.
  - destruct (Z.compare_spec ex ey) as [->|Hlt|Hgt]; [| |done].
    + rewrite !aligned_eq.
      change (Pos.compare_cont Eq mx my) with (Pos.compare mx my) in Hle.
      destruct (Pos.compare_spec mx my); cbn in Hle; try done; lia.
    + pose proof (aligned_lt mx ex my ey Vx Vy Hlt). lia.
Qed.

Lemma SFmul_nonpos d m e :
  sf_nonpos d -> sf_nonpos (SFmul prec emax d (S754_finite false m e)).
Proof.
  destruct d as [s|[]| |[] md ed]; try done. intros _. cbn [SFmul xorb].
  pose proof (binary_round_aux_signed true (Z.pos (md * m)) (ed + e) loc_Exact
                ltac:(lia)) as Hs.
  by destruct (binary_round_aux _ _ _ _ _ _) as [s|s| |s m' e']; cbn in *; subst.
Qed.

Lemma trunc_shift_nonneg m e : 0 <= Py.trunc_shift m e.
Proof.
  unfold Py.trunc_shift. destruct (0 <=? e).
  - apply Z.shiftl_nonneg. lia.
  - apply Z.shiftr_nonneg. lia.
Qed.

Lemma int_of_nonpos (x : float) (d : Z) :
  sf_nonpos (Prim2SF x) -> Py.int_of_float x = Some d -> d <= 0.
Proof.
  unfold Py.int_of_float.
  destruct (Prim2SF x) as [s|s| |[] m e]; try done.
  - by intros _ [= <-].
  - intros _ [= <-]. cbn [cond_Zopp]. pose proof (trunc_shift_nonneg m e). lia.
Qed.

(** X15. A segment whose end is not after its start is never stretched: its
    clip is taken as it was synthesized, and [adjust] raises only where
    [int] raises on the span. *)
Theorem span_not_positive_keeps_the_piece {A : Type} `{AudioOps A}
    (seg : SubtitleSegment) (piece : A) :
  (end_ seg <=? start seg)%float = true ->
  adjust seg piece
  = (_ ← Py.int_of_float ((end_ seg - start seg) * Py.float_of_int 1000)%float;
     Some piece).
Proof.
  intros Hle. unfold adjust.
  destruct (Py.int_of_float _) as [d|] eqn:Ed; [|done]. cbn.
  apply int_of_nonpos in Ed.
  - destruct (Z.ltb_spec 0 d); [lia|done].
  - rewrite mul_spec, sub_spec, Prim2SF_float_of_int.
    change (binary_normalize prec emax 1000 0 false)
      with (S754_finite false 8796093022208000 (-43)).
    apply SFmul_nonpos, SFsub_nonpos; try apply Prim2SF_valid.
    by rewrite <- leb_spec.
Qed.

Lemma span_not_positive_keeps_the_piece_witness :
  adjust tie_a (clip_24k 100)
  = (_ ← Py.int_of_float ((end_ tie_a - start tie_a) * Py.float_of_int 1000)%float;
     Some (clip_24k 100)).
Proof. apply span_not_positive_keeps_the_piece. vm_compute. reflexivity. Defined.

(** ** src/tts.py: the assembly ends *)

Lemma Zdigits2_le m k : 0 <= k -> 0 <= m < 2 ^ k -> Zdigits2 m <= k.
Proof.
  intros Hk [H0 Hm]. destruct (Z.eq_dec m 0) as [->|]; [cbn; lia|].
  pose proof (Zdigits2_bounds m ltac:(lia)) as [Hlo _].
  destruct (Z_le_gt_dec (Zdigits2 m) k) as [|Hgt]; [done|].
  assert (2 ^ k <= 2 ^ (Zdigits2 m - 1)) by (apply Z.pow_le_mono_r; lia). lia.
Qed.





Section Ends.
Context {A : Type} `{AudioOps A}.




End Ends.


(** ** src/tts.py: the shared segments and the assembly by value *)

Lemma insert_by_Forall2 {X Y : Type} (R : X -> Y -> Prop)
    (key : X -> float) (key' : Y -> float) x y l l' :
  (forall a b, R a b -> key a = key' b) ->
  R x y -> Forall2 R l l' ->
  Forall2 R (insert_by key x l) (insert_by key' y l').
Proof.
  intros Hk Hxy. induction 1 as [|a b l l' Hab Hl IH]; cbn [insert_by].
  - by repeat constructor.
  - rewrite (Hk _ _ Hab), (Hk _ _ Hxy).
    destruct (key' b <? key' y)%float; by repeat constructor.
Qed.

Lemma sorted_Forall2 {X Y : Type} (R : X -> Y -> Prop)
    (key : X -> float) (key' : Y -> float) l l' :
  (forall a b, R a b -> key a = key' b) ->
  Forall2 R l l' -> Forall2 R (sorted key l) (sorted key' l').
Proof.
  intros Hk. induction 1 as [|a b l l' Hab Hl IH]; cbn [sorted]; [constructor|].
  by apply insert_by_Forall2.
Qed.

Lemma set_actual_nominal seg seg' a b :
  nominal seg = nominal seg' -> set_actual seg a b = set_actual seg' a b.
Proof. unfold nominal, set_actual. by intros [= -> -> -> -> ->]. Qed.

Section Shared.
Context {A : Type} `{AudioOps A}.

Lemma arrange_loop_at_by_value (segments0 : list SubtitleSegment)
    (ps : list (nat * A)) (vps : list (SubtitleSegment * A)) :
  Forall2 (refers segments0) ps vps ->
  forall pos audio segments,
    List.map nominal segments = List.map nominal segments0 ->
    arrange_loop_at ps pos audio segments
    = ('(segs, pos', audio') ← arrange_loop vps pos audio;
       Some (stored segments (zip (List.map fst ps) segs), pos', audio')).
Proof.
  induction 1 as [|[i piece] [seg0 piece'] ps vps [Hi Hp] _ IH];
    intros pos audio segments Hn; [done|].
  cbn [fst snd] in Hi, Hp. subst piece'.
  cbn [arrange_loop_at arrange_loop List.map fst].
  assert (exists seg, segments !! i = Some seg /\ nominal seg = nominal seg0)
    as (seg & Hseg & Hnom).
  { apply (f_equal (fun l => l !! i)) in Hn.
    change (List.map nominal) with (fmap (M:=list) nominal) in Hn.
    rewrite !list_lookup_fmap, Hi in Hn.
    destruct (segments !! i) as [seg|]; [|done]. exists seg. split; [done|].
    change (Some (nominal seg) = Some (nominal seg0)) in Hn. congruence. }
  rewrite Hseg. cbn [mbind option_bind].
  rewrite (adjust_nominal seg seg0 piece Hnom).
  destruct (adjust seg0 piece) as [adjusted|]; [|done]. cbn [mbind option_bind].
  rewrite (set_actual_nominal seg seg0 _ _ Hnom).
  rewrite IH.
  - destruct (arrange_loop vps _ _) as [[[segs pos'] audio']|]; [|done]. done.
  - change (List.map nominal) with (fmap (M:=list) nominal).
    rewrite list_fmap_insert, nominal_set_actual.
    change (fmap (M:=list) nominal) with (List.map nominal). rewrite <- Hn.
    apply list_insert_id.
    change (List.map nominal) with (fmap (M:=list) nominal).
    by rewrite list_lookup_fmap, Hseg, <- Hnom.
Qed.

(** X17. Writing the achieved times into the shared segments gives what the
    assembly by value gives: the same track and duration, and in the list,
    at the position of the segment of each piece, the segment as it was
    sequenced. *)
Theorem shared_segments_get_the_sequenced_times
    (segments : list SubtitleSegment) (pieces : list (nat * A))
    (value_pieces : list (SubtitleSegment * A)) :
  Forall2 (refers segments) pieces value_pieces ->
  synthesize_at segments pieces
  = (out ← arrange value_pieces;
     Some (stored segments
             (zip (List.map fst (sorted (fun ip => start_at segments (fst ip)) pieces))
                  (sequenced out)),
           combined out, actual_total_duration_seconds out)).
Proof.
  intros Hr. unfold synthesize_at, arrange.
  rewrite (arrange_loop_at_by_value segments _
             (sorted (fun sp => start (fst sp)) value_pieces)); [|
    apply sorted_Forall2; [|done] | done].
  - by destruct (arrange_loop _ 0 []) as [[[segs pos] audio]|].
  - intros [i a] [seg b] [Hi _]. unfold start_at. cbn [fst] in *. by rewrite Hi.
Qed.

End Shared.

Lemma shared_segments_get_the_sequenced_times_witness :
  synthesize_at scene_answered scene_pieces
  = (out ← arrange scene_value_pieces;
     Some (stored scene_answered
             (zip (List.map fst
                     (sorted (fun ip => start_at scene_answered (fst ip)) scene_pieces))
                  (sequenced out)),
           combined out, actual_total_duration_seconds out)).
Proof.
  apply shared_segments_get_the_sequenced_times.
  repeat apply Forall2_cons_2; [| |apply Forall2_nil_2];
    (split; [vm_compute; reflexivity|reflexivity]).
Defined.

(** ** Binary64: the error of one rounding *)

Lemma Zdigits2_ge m : 2 ^ 52 <= m -> 53 <= Zdigits2 m.
Proof.
  intros Hm. change 53 with (Zdigits2 (2 ^ 52)). apply Zdigits2_mono.
  split; [done|exact Hm].
Qed.

Lemma scale_between (B n lo hi : Z) :
  0 < B -> lo <= n <= hi -> lo * B <= n * B <= hi * B.
Proof. intros HB Hn. split; apply Z.mul_le_mono_nonneg_r; lia. Qed.

Lemma scale_floor (T a b c : Z) :
  0 < T -> a <= b < a + c -> a * T <= b * T < a * T + c * T.
Proof.
  intros HT [Hab Hbc]. split; [apply Z.mul_le_mono_nonneg_r; lia|].
  rewrite <- Z.mul_add_distr_r. by apply Z.mul_lt_mono_pos_r.
Qed.

(** A mantissa of 53 digits or more is rounded to a finite float within one
    unit of its last place, which is at most [2^-52] of the value. *)
Lemma round_error (k m e : Z) (l : location) :
  2 ^ 52 <= m -> 0 <= e + k ->
  -1074 <= Zdigits2 m + e - 53 -> Zdigits2 m + e - 53 + 1 <= 971 ->
  exists p e',
    binary_round_aux prec emax false m e l = S754_finite false p e'
    /\ 2 ^ 52 * Z.abs (Z.pos p * 2 ^ (e' + k) - m * 2 ^ (e + k)) <= m * 2 ^ (e + k).
Proof.
  intros Hm Hk Hlo Hhi.
  assert (Hm0 : 0 < m) by (pose proof (Z.pow_pos_nonneg 2 52); lia).
  pose proof (Zdigits2_ge m Hm) as Hd.
  destruct (binary_round_aux_spec false m e l ltac:(lia)) as (m1 & Hm1 & ->).
  set (E := Zdigits2 m + e - 53) in *.
  assert (Hf : fexp (Zdigits2 m + e) = E) by (rewrite fexp_eq; lia).
  rewrite Hf in *.
  set (n := Z.max 0 (E - e)) in *.
  assert (Hn : n = Zdigits2 m - 53) by lia.
  assert (HEn : e + n = E) by lia.
  rewrite HEn.
  assert (Hdq : Zdigits2 (m / 2 ^ n) = 53) by (rewrite Zdigits2_shift by lia; lia).
  assert (Hq0 : 0 < m / 2 ^ n).
  { destruct (Z.eq_dec (m / 2 ^ n) 0) as [E0|]; [by rewrite E0 in Hdq|].
    assert (0 <= m / 2 ^ n) by (apply Z.div_pos; [lia|apply Z.pow_pos_nonneg; lia]).
    lia. }
  pose proof (Zdigits2_bounds (m / 2 ^ n) Hq0) as [Hqlo Hqhi].
  rewrite Hdq in Hqlo, Hqhi. change (53 - 1) with 52 in Hqlo.
  (* the value before rounding, split at the [n] digits that are dropped *)
  set (S := 2 ^ (e + k)). set (T := 2 ^ (E + k)).
  assert (HS : 0 < S) by (apply Z.pow_pos_nonneg; lia).
  assert (HT : T = 2 ^ n * S).
  { subst T S. rewrite <- Z.pow_add_r by lia. f_equal. lia. }
  assert (Hpn : 0 < 2 ^ n) by (apply Z.pow_pos_nonneg; lia).
  pose proof (Z.div_mod m (2 ^ n) ltac:(lia)) as Hdm.
  pose proof (Z.mod_pos_bound m (2 ^ n) Hpn) as Hr.
  set (Q := m / 2 ^ n) in *. set (R := m mod 2 ^ n) in *.
  assert (HM : m * S = Q * T + R * S) by (rewrite HT, Hdm at 1; ring).
  assert (HRS : 0 <= R * S < T) by (rewrite HT; nia).
  assert (HQT : 2 ^ 52 * T <= Q * T) by nia.
  assert (Hval : forall p e', Z.pos p * 2 ^ (e' + k) = m1 * T ->
            2 ^ 52 * Z.abs (Z.pos p * 2 ^ (e' + k) - m * S) <= m * S).
  { intros p e' ->. rewrite HM. destruct Hm1 as [->| ->]; nia. }
  destruct (Z.eq_dec m1 (2 ^ 53)) as [Htop|Hnot].
  - (* the mantissa rounded up to [2^53] *)
    assert (Zdigits2 m1 = 54) as -> by (by rewrite Htop).
    assert (fexp (54 + E) = E + 1) as -> by (rewrite fexp_eq; lia).
    replace (Z.max 0 (E + 1 - E)) with 1 by lia.
    rewrite Htop. change (2 ^ 53 / 2 ^ 1) with (Z.pos 4503599627370496).
    destruct (Z.leb_spec (E + 1) (emax - prec)) as [|Hover];
      [|change (emax - prec) with 971 in Hover; lia].
    eexists _, _. split; [reflexivity|]. apply Hval.
    rewrite Htop. subst T. replace (E + 1 + k) with (Z.succ (E + k)) by lia.
    rewrite Z.pow_succ_r by lia. lia.
  - assert (Hm1b : 2 ^ 52 <= m1 < 2 ^ 53) by lia.
    assert (Zdigits2 m1 = 53) as ->.
    { pose proof (Zdigits2_ge m1 ltac:(lia)).
      pose proof (Zdigits2_le m1 53 ltac:(lia) ltac:(lia)). lia. }
    assert (fexp (53 + E) = E) as -> by (rewrite fexp_eq; lia).
    replace (Z.max 0 (E - E)) with 0 by lia.
    rewrite Z.div_1_r, Z.add_0_r. destruct m1 as [|p|p]; try lia.
    destruct (Z.leb_spec E (emax - prec)) as [|Hover];
      [|change (emax - prec) with 971 in Hover; lia].
    eexists _, _. split; [reflexivity|]. by apply Hval.
Qed.

(** A float with a positive value is finite and positive. *)
Lemma scaled_by_pos k x :
  0 < scaled_by k x ->
  exists m e, x = S754_finite false m e /\ scaled_by k x = Z.pos m * 2 ^ (e + k).
Proof.
  destruct x as [s|s| |[] m e]; cbn [scaled_by]; try lia. intros _. by eexists _, _.
Qed.

(** The exponent of a canonical float whose value is between [2^-100] and
    [2^100]; its mantissa has 53 digits. *)
Lemma scaled_by_exponent k m e :
  2200 <= k ->
  bounded prec emax m e = true ->
  2 ^ (k - 100) <= Z.pos m * 2 ^ (e + k) < 2 ^ (k + 100) ->
  -153 < e < 100 /\ 2 ^ 52 <= Z.pos m < 2 ^ 53.
Proof.
  intros Hk Hb [Hlo Hhi].
  destruct (bounded_inv _ _ Hb) as (_ & _ & He).
  destruct (bounded_mantissa _ _ Hb) as [Hm Hn].
  assert (0 < 2 ^ (e + k)) by (apply Z.pow_pos_nonneg; lia).
  assert (Hlt : 2 ^ (k - 100) < 2 ^ (e + k + 53)).
  { rewrite (Z.pow_add_r 2 (e + k) 53) by lia. nia. }
  apply Z.pow_lt_mono_r_iff in Hlt; [|lia|lia].
  assert (Hgt : 2 ^ (e + k) < 2 ^ (k + 100)) by nia.
  apply Z.pow_lt_mono_r_iff in Hgt; [|lia|lia].
  split; [lia|]. split; [apply Hn; lia|done].
Qed.

(** *** The four operations on times *)

Section Times.
Variable k : Z.
Hypothesis Hk : 2200 <= k.

Abbreviation value x := (scaled_by k (Prim2SF x)).
Abbreviation thousand := 8796093022208000%positive.

(** [float(z)] *)
Lemma value_float_of_int z :
  0 < z < 2 ^ 53 ->
  2 ^ 52 * Z.abs (value (Py.float_of_int z) - z * 2 ^ k) <= z * 2 ^ k.
Proof.
  intros Hz. rewrite Prim2SF_float_of_int.
  destruct z as [|p|p]; try lia. cbn [binary_normalize]. unfold binary_round.
  change (Z.pos (digits2_pos p)) with (Zdigits2 (Z.pos p)).
  pose proof (Zdigits2_le (Z.pos p) 53 ltac:(lia) ltac:(lia)) as Hd.
  assert (0 < Zdigits2 (Z.pos p)).
  { rewrite Zdigits2_pos by lia. pose proof (Z.log2_nonneg (Z.pos p)). lia. }
  set (t := fexp (Zdigits2 (Z.pos p) + 0)).
  assert (Ht : t = Zdigits2 (Z.pos p) - 53) by (subst t; rewrite fexp_eq; lia).
  destruct (shl_align_below p 0 t) as [E1 E2]; [lia|].
  destruct (shl_align p 0 t) as [mz ez]. cbn [fst snd] in E1, E2. subst ez.
  assert (Hdz : Zdigits2 (Z.pos mz) = 53).
  { rewrite E1, Zdigits2_mul_pow2 by lia. lia. }
  pose proof (Zdigits2_bounds (Z.pos mz) ltac:(lia)) as [Hlo _].
  rewrite Hdz in Hlo. change (53 - 1) with 52 in Hlo.
  destruct (round_error k (Z.pos mz) t loc_Exact) as (q & e' & -> & Herr); try lia.
  cbn [scaled_by].
  replace (Z.pos mz * 2 ^ (t + k)) with (Z.pos p * 2 ^ k) in Herr; [done|].
  rewrite E1, <- Z.mul_assoc, <- Z.pow_add_r by lia. do 2 f_equal. lia.
Qed.

(** [x / 1000.0] *)
Lemma value_div_1000 (x : float) :
  2 ^ (k - 100) <= value x < 2 ^ (k + 100) ->
  2 ^ 52 * Z.abs (1000 * value (x / 1000) - value x) <= 2 * value x.
Proof.
  intros Hx.
  assert (0 < 2 ^ (k - 100)) by (apply Z.pow_pos_nonneg; lia).
  destruct (scaled_by_pos k (Prim2SF x) ltac:(lia)) as (mx & ex & Ex & Ev).
  pose proof (Prim2SF_valid x) as Vx. rewrite Ex in Vx. cbn [valid_binary] in Vx.
  rewrite div_spec, Ex in *. rewrite Ev in *. clear Ev.
  destruct (scaled_by_exponent k mx ex Hk Vx Hx) as [He Hm].
  change (Prim2SF 1000) with (S754_finite false thousand (-43)).
  unfold SF64div. cbn [SFdiv xorb]. unfold SFdiv_core_binary.
  assert (Zdigits2 (Z.pos mx) = 53) as ->.
  { pose proof (Zdigits2_ge _ (proj1 Hm)).
    pose proof (Zdigits2_le (Z.pos mx) 53 ltac:(lia) ltac:(lia)). lia. }
  change (Zdigits2 (Z.pos thousand)) with 53.
  replace (53 + ex - (53 + -43)) with (ex + 43) by lia.
  assert (fexp (ex + 43) = ex - 10) as -> by (rewrite fexp_eq; lia).
  replace (Z.min (ex - 10) (ex - -43)) with (ex - 10) by lia.
  replace (ex - -43 - (ex - 10)) with 53 by lia.
  cbv zeta. cbv iota. rewrite Z.shiftl_mul_pow2 by lia.
  pose proof (Z_div_mod (Z.pos mx * 2 ^ 53) (Z.pos thousand) ltac:(lia)) as Hdm.
  destruct (Z.div_eucl (Z.pos mx * 2 ^ 53) (Z.pos thousand)) as [q0 r].
  destruct Hdm as [Hdm Hr].
  assert (Hq0 : 2 ^ 52 <= q0 < 2 ^ 54).
  { change (2 ^ 53) with 9007199254740992 in *. change (2 ^ 52) with 4503599627370496 in *.
    change (2 ^ 54) with 18014398509481984. lia. }
  pose proof (Zdigits2_ge q0 (proj1 Hq0)) as Hd1.
  pose proof (Zdigits2_le q0 54 ltac:(lia) ltac:(lia)) as Hd2.
  destruct (round_error k q0 (ex - 10) (new_location (Z.pos thousand) r))
    as (q & e' & -> & Herr); try lia.
  cbn [scaled_by].
  set (T := 2 ^ (ex - 10 + k)) in *.
  assert (HT : 0 < T) by (apply Z.pow_pos_nonneg; lia).
  assert (HX : Z.pos mx * 2 ^ (ex + k) = Z.pos mx * 1024 * T).
  { subst T. change 1024 with (2 ^ 10). rewrite <- Z.mul_assoc, <- Z.pow_add_r by lia.
    do 2 f_equal. lia. }
  rewrite HX.
  assert (Hfloor : 1000 * q0 <= Z.pos mx * 1024 < 1000 * q0 + 1000).
  { change (2 ^ 53) with 9007199254740992 in *. lia. }
  set (Q0 := q0 * T) in *. set (Qr := Z.pos q * 2 ^ (e' + k)) in *.
  assert (2 ^ 52 * T <= Q0)
    by (subst Q0; apply Z.mul_le_mono_nonneg_r; lia).
  pose proof (scale_floor T (1000 * q0) (Z.pos mx * 1024) 1000 HT Hfloor) as Hsc.
  replace (1000 * q0 * T) with (1000 * Q0) in Hsc by (subst Q0; ring).
  lia.
Qed.

(** [x * 1000] *)
Lemma value_mul_1000 (x : float) :
  2 ^ (k - 100) <= value x < 2 ^ (k + 100) ->
  2 ^ 52 * Z.abs (value (x * Py.float_of_int 1000) - 1000 * value x)
  <= 1000 * value x.
Proof.
  intros Hx.
  assert (0 < 2 ^ (k - 100)) by (apply Z.pow_pos_nonneg; lia).
  destruct (scaled_by_pos k (Prim2SF x) ltac:(lia)) as (mx & ex & Ex & Ev).
  pose proof (Prim2SF_valid x) as Vx. rewrite Ex in Vx. cbn [valid_binary] in Vx.
  rewrite mul_spec, Prim2SF_float_of_int, Ex in *. rewrite Ev in *. clear Ev.
  destruct (scaled_by_exponent k mx ex Hk Vx Hx) as [He Hm].
  change (binary_normalize prec emax 1000 0 false)
    with (S754_finite false thousand (-43)).
  unfold SF64mul. cbn [SFmul xorb].
  assert (Hprod : 2 ^ 52 <= Z.pos (mx * thousand) < 2 ^ 106).
  { rewrite Pos2Z.inj_mul. change (2 ^ 106) with (2 ^ 53 * 2 ^ 53).
    change (2 ^ 53) with 9007199254740992 in *. change (2 ^ 52) with 4503599627370496 in *.
    nia. }
  pose proof (Zdigits2_ge _ (proj1 Hprod)) as Hd1.
  pose proof (Zdigits2_le (Z.pos (mx * thousand)) 106 ltac:(lia) ltac:(lia)) as Hd2.
  destruct (round_error k (Z.pos (mx * thousand)) (ex + -43) loc_Exact)
    as (q & e' & -> & Herr); try lia.
  cbn [scaled_by].
  replace (Z.pos (mx * thousand) * 2 ^ (ex + -43 + k))
    with (1000 * (Z.pos mx * 2 ^ (ex + k))) in Herr; [done|].
  rewrite Pos2Z.inj_mul. change (Z.pos thousand) with (1000 * 2 ^ 43).
  replace (ex + k) with (43 + (ex + -43 + k)) by lia.
  rewrite (Z.pow_add_r 2 43) by lia. ring.
Qed.

(** [x + y] *)
Lemma value_add (x y : float) :
  2 ^ (k - 100) <= value x < 2 ^ (k + 100) ->
  2 ^ (k - 100) <= value y < 2 ^ (k + 100) ->
  2 ^ 52 * Z.abs (value (x + y) - (value x + value y)) <= value x + value y.
Proof.
  intros Hx Hy.
  assert (0 < 2 ^ (k - 100)) by (apply Z.pow_pos_nonneg; lia).
  destruct (scaled_by_pos k (Prim2SF x) ltac:(lia)) as (mx & ex & Ex & Evx).
  destruct (scaled_by_pos k (Prim2SF y) ltac:(lia)) as (my & ey & Ey & Evy).
  pose proof (Prim2SF_valid x) as Vx. rewrite Ex in Vx. cbn [valid_binary] in Vx.
  pose proof (Prim2SF_valid y) as Vy. rewrite Ey in Vy. cbn [valid_binary] in Vy.
  rewrite add_spec, Ex, Ey in *. rewrite Evx, Evy in *. clear Evx Evy.
  destruct (scaled_by_exponent k mx ex Hk Vx Hx) as [Hex Hmx].
  destruct (scaled_by_exponent k my ey Hk Vy Hy) as [Hey Hmy].
  unfold SF64add. cbn [SFadd cond_Zopp].
  set (ez := Z.min ex ey).
  destruct (shl_align_below mx ex ez) as [Eax _]; [lia|].
  destruct (shl_align_below my ey ez) as [Eay _]; [lia|].
  set (px := fst (shl_align mx ex ez)) in *.
  set (py := fst (shl_align my ey ez)) in *.
  change (Z.pos px + Z.pos py) with (Z.pos (px + py)).
  cbn [binary_normalize]. unfold binary_round.
  change (Z.pos (digits2_pos (px + py))) with (Zdigits2 (Z.pos (px + py))).
  assert (Hpx : 1 <= 2 ^ (ex - ez)) by (pose proof (Z.pow_pos_nonneg 2 (ex - ez)); lia).
  assert (Hpy : 1 <= 2 ^ (ey - ez)) by (pose proof (Z.pow_pos_nonneg 2 (ey - ez)); lia).
  assert (Hux : 2 ^ (ex - ez) <= 2 ^ 253) by (apply Z.pow_le_mono_r; lia).
  assert (Huy : 2 ^ (ey - ez) <= 2 ^ 253) by (apply Z.pow_le_mono_r; lia).
  assert (Hsum : 2 ^ 52 <= Z.pos (px + py) < 2 ^ 307).
  { rewrite Pos2Z.inj_add, Eax, Eay.
    assert (Z.pos mx * 1 <= Z.pos mx * 2 ^ (ex - ez))
      by (apply Z.mul_le_mono_nonneg_l; lia).
    assert (Z.pos mx * 2 ^ (ex - ez) < 2 ^ 53 * 2 ^ 253).
    { apply Z.lt_le_trans with (2 ^ 53 * 2 ^ (ex - ez)).
      - apply Z.mul_lt_mono_pos_r; lia.
      - apply Z.mul_le_mono_nonneg_l; lia. }
    assert (Z.pos my * 2 ^ (ey - ez) <= 2 ^ 53 * 2 ^ 253)
      by (apply Z.mul_le_mono_nonneg; lia).
    assert (0 < Z.pos my * 2 ^ (ey - ez)) by (apply Z.mul_pos_pos; lia).
    change (2 ^ 307) with (2 * (2 ^ 53 * 2 ^ 253)) in *.
    set (U := 2 ^ 53 * 2 ^ 253) in *. lia. }
  pose proof (Zdigits2_ge _ (proj1 Hsum)) as Hd1.
  pose proof (Zdigits2_le (Z.pos (px + py)) 307 ltac:(lia) ltac:(lia)) as Hd2.
  rewrite shl_align_above by (rewrite fexp_eq; lia).
  destruct (round_error k (Z.pos (px + py)) ez loc_Exact)
    as (q & e' & -> & Herr); try lia.
  cbn [scaled_by].
  replace (Z.pos (px + py) * 2 ^ (ez + k))
    with (Z.pos mx * 2 ^ (ex + k) + Z.pos my * 2 ^ (ey + k)) in Herr; [done|].
  rewrite Pos2Z.inj_add, Eax, Eay.
  replace (ex + k) with (ex - ez + (ez + k)) by lia.
  replace (ey + k) with (ey - ez + (ez + k)) by lia.
  rewrite (Z.pow_add_r 2 (ex - ez) (ez + k)), (Z.pow_add_r 2 (ey - ez) (ez + k)) by lia.
  ring.
Qed.

(** [round(x)] for a float within half a unit of the integer [n] *)
Lemma round_of_value (x : float) (n : Z) :
  1 <= n < 2 ^ 48 ->
  2 * Z.abs (value x - n * 2 ^ k) < 2 ^ k ->
  Py.round x = Some n.
Proof.
  intros Hn Herr.
  assert (HB : 0 < 2 ^ k) by (apply Z.pow_pos_nonneg; lia).
  assert (Hlo : 2 ^ (k - 100) <= value x < 2 ^ (k + 100)).
  { assert (2 ^ k = 2 ^ 100 * 2 ^ (k - 100)) as E1
      by (rewrite <- Z.pow_add_r by lia; f_equal; lia).
    assert (2 ^ (k + 100) = 2 ^ 100 * 2 ^ k) as E2
      by (rewrite <- Z.pow_add_r by lia; f_equal; lia).
    assert (0 < 2 ^ (k - 100)) by (apply Z.pow_pos_nonneg; lia).
    change (2 ^ 48) with 281474976710656 in Hn.
    change (2 ^ 100) with 1267650600228229401496703205376 in *. nia. }
  assert (0 < 2 ^ (k - 100)) by (apply Z.pow_pos_nonneg; lia).
  destruct (scaled_by_pos k (Prim2SF x) ltac:(lia)) as (m & e & Ex & Ev).
  pose proof (Prim2SF_valid x) as Vx. rewrite Ex in Vx. cbn [valid_binary] in Vx.
  unfold Py.round. rewrite Ex in *. rewrite Ev in *. clear Ev.
  destruct (scaled_by_exponent k m e Hk Vx Hlo) as [He Hm].
  cbn [cond_Zopp]. f_equal.
  (* the exponent is negative: the value is below [2^48] *)
  assert (Hneg : e < 0).
  { destruct (Z_lt_ge_dec e 0) as [|Hge]; [done|]. exfalso.
    assert (2 ^ k <= 2 ^ (e + k)) by (apply Z.pow_le_mono_r; lia).
    change (2 ^ 48) with 281474976710656 in Hn.
    change (2 ^ 52) with 4503599627370496 in Hm. nia. }
  unfold Py.round_shift. destruct (Z.leb_spec 0 e); [lia|].
  set (j := - e) in *.
  assert (Hj : 0 < j) by lia.
  rewrite Z.shiftr_div_pow2, !Z.shiftl_mul_pow2 by lia.
  rewrite Z.mul_1_l.
  (* back to units of [2^-j] *)
  assert (HT : 2 ^ k = 2 ^ j * 2 ^ (e + k)).
  { rewrite <- Z.pow_add_r by lia. f_equal. lia. }
  assert (HS : 0 < 2 ^ (e + k)) by (apply Z.pow_pos_nonneg; lia).
  assert (Hj2 : 2 ^ j = 2 * 2 ^ (j - 1)).
  { replace j with (Z.succ (j - 1)) at 1 by lia. rewrite Z.pow_succ_r by lia. done. }
  assert (Hh : 0 < 2 ^ (j - 1)) by (apply Z.pow_pos_nonneg; lia).
  assert (Hclose : Z.abs (Z.pos m - n * 2 ^ j) < 2 ^ (j - 1)).
  { rewrite HT in Herr. set (S := 2 ^ (e + k)) in *.
    replace (Z.pos m * S - n * (2 ^ j * S)) with ((Z.pos m - n * 2 ^ j) * S) in Herr by ring.
    rewrite Z.abs_mul, (Z.abs_eq S) in Herr by lia. nia. }
  set (h := 2 ^ (j - 1)) in *.
  destruct (Z_le_gt_dec (n * 2 ^ j) (Z.pos m)) as [Hup|Hdown].
  - assert (Z.pos m / 2 ^ j = n) as ->.
    { symmetry. apply (Z.div_unique _ _ _ (Z.pos m - n * 2 ^ j)); lia. }
    destruct (Z.compare_spec (Z.pos m - n * 2 ^ j) h); lia.
  - assert (Z.pos m / 2 ^ j = n - 1) as ->.
    { symmetry. apply (Z.div_unique _ _ _ (Z.pos m - (n - 1) * 2 ^ j)); lia. }
    destruct (Z.compare_spec (Z.pos m - (n - 1) * 2 ^ j) h); lia.
Qed.

End Times.

(** *** Times in seconds, written in milliseconds *)

Lemma round_product_ext (x y c : float) :
  Prim2SF x = Prim2SF y -> Py.round (x * c)%float = Py.round (y * c)%float.
Proof. intros E. unfold Py.round. by rewrite !mul_spec, E. Qed.

(** [ms / 1000.0] is within four units of the last place of [ms / 1000]. *)
Lemma value_seconds (k ms : Z) :
  2200 <= k -> 1 <= ms < 2 ^ 47 ->
  2 ^ 52 * Z.abs (1000 * scaled_by k (Prim2SF (seconds ms)) - ms * 2 ^ k)
    <= 4 * (ms * 2 ^ k)
  /\ 2 ^ (k - 100) <= scaled_by k (Prim2SF (seconds ms)) < 2 ^ (k + 100).
Proof.
  intros Hk Hms.
  assert (HB : 0 < 2 ^ (k - 100)) by (apply Z.pow_pos_nonneg; lia).
  assert (E1 : 2 ^ k = 2 ^ 100 * 2 ^ (k - 100))
    by (rewrite <- Z.pow_add_r by lia; f_equal; lia).
  assert (E2 : 2 ^ (k + 100) = 2 ^ 100 * 2 ^ k)
    by (rewrite <- Z.pow_add_r by lia; f_equal; lia).
  pose proof (value_float_of_int k Hk ms ltac:(lia)) as H0.
  set (X0 := scaled_by k (Prim2SF (Py.float_of_int ms))) in *.
  set (PB := ms * 2 ^ k) in *.
  assert (HPB : 1 * 2 ^ k <= PB <= (2 ^ 47 - 1) * 2 ^ k)
    by (apply scale_between; lia).
  change (2 ^ 47) with 140737488355328 in *.
  change (2 ^ 52) with 4503599627370496 in *.
  change (2 ^ 100) with 1267650600228229401496703205376 in *.
  assert (HX0 : 2 ^ (k - 100) <= X0 < 2 ^ (k + 100)) by lia.
  pose proof (value_div_1000 k Hk (Py.float_of_int ms) HX0) as H1.
  fold X0 in H1. unfold seconds.
  set (Q := scaled_by k (Prim2SF (Py.float_of_int ms / 1000))) in *.
  lia.
Qed.

Lemma round_of_seconds (ms : Z) :
  0 <= ms < 2 ^ 47 ->
  Py.round (seconds ms * Py.float_of_int 1000)%float = Some ms.
Proof.
  intros Hms. destruct (Z.eq_dec ms 0) as [->|Hne]; [by vm_compute|].
  set (k := 2200).
  destruct (value_seconds k ms ltac:(lia) ltac:(lia)) as [Hq Hb].
  pose proof (value_mul_1000 k ltac:(lia) (seconds ms) Hb) as Hp.
  apply (round_of_value k ltac:(lia)); [change (2 ^ 48) with (2 * 2 ^ 47); lia|].
  set (Q := scaled_by k (Prim2SF (seconds ms))) in *.
  set (P := scaled_by k (Prim2SF (seconds ms * Py.float_of_int 1000))) in *.
  set (PB := ms * 2 ^ k) in *.
  assert (HB : 0 < 2 ^ k) by (apply Z.pow_pos_nonneg; lia).
  assert (HPB : 1 * 2 ^ k <= PB <= (2 ^ 47 - 1) * 2 ^ k)
    by (apply scale_between; lia).
  change (2 ^ 47) with 140737488355328 in *.
  change (2 ^ 52) with 4503599627370496 in *.
  lia.
Qed.

Lemma round_of_seconds_sum (pos l : Z) :
  0 <= pos -> 0 <= l -> pos + l < 2 ^ 47 ->
  Py.round ((seconds pos + seconds l) * Py.float_of_int 1000)%float = Some (pos + l).
Proof.
  intros Hpos Hl Hsum. set (k := 2200).
  assert (forall ms, 1 <= ms < 2 ^ 47 ->
            exists m e, Prim2SF (seconds ms) = S754_finite false m e) as Hfin.
  { intros ms Hms. destruct (value_seconds k ms ltac:(lia) Hms) as [_ [Hlo _]].
    assert (0 < 2 ^ (k - 100)) by (apply Z.pow_pos_nonneg; lia).
    destruct (scaled_by_pos k (Prim2SF (seconds ms)) ltac:(lia)) as (m & e & E & _).
    by eexists _, _. }
  destruct (Z.eq_dec l 0) as [->|Hl0].
  { rewrite Z.add_0_r. rewrite <- (round_of_seconds pos) by lia.
    apply round_product_ext. rewrite add_spec.
    change (Prim2SF (seconds 0)) with (S754_zero false).
    destruct (Z.eq_dec pos 0) as [->|]; [done|].
    by destruct (Hfin pos ltac:(lia)) as (m & e & ->). }
  destruct (Z.eq_dec pos 0) as [->|Hp0].
  { rewrite Z.add_0_l. rewrite <- (round_of_seconds l) by lia.
    apply round_product_ext. rewrite add_spec.
    change (Prim2SF (seconds 0)) with (S754_zero false).
    by destruct (Hfin l ltac:(lia)) as (m & e & ->). }
  destruct (value_seconds k pos ltac:(lia) ltac:(lia)) as [Ha Hba].
  destruct (value_seconds k l ltac:(lia) ltac:(lia)) as [Hb Hbb].
  pose proof (value_add k ltac:(lia) (seconds pos) (seconds l) Hba Hbb) as Hc.
  set (Va := scaled_by k (Prim2SF (seconds pos))) in *.
  set (Vb := scaled_by k (Prim2SF (seconds l))) in *.
  set (Vc := scaled_by k (Prim2SF (seconds pos + seconds l))) in *.
  set (PA := pos * 2 ^ k) in *. set (PL := l * 2 ^ k) in *.
  assert (HB : 0 < 2 ^ (k - 100)) by (apply Z.pow_pos_nonneg; lia).
  assert (E1 : 2 ^ k = 2 ^ 100 * 2 ^ (k - 100))
    by (rewrite <- Z.pow_add_r by lia; f_equal; lia).
  assert (E2 : 2 ^ (k + 100) = 2 ^ 100 * 2 ^ k)
    by (rewrite <- Z.pow_add_r by lia; f_equal; lia).
  assert (HBk : 0 < 2 ^ k) by (apply Z.pow_pos_nonneg; lia).
  assert (HPA : 1 * 2 ^ k <= PA <= (2 ^ 47 - 1) * 2 ^ k)
    by (apply scale_between; lia).
  assert (HPL : 1 * 2 ^ k <= PL <= (2 ^ 47 - 1) * 2 ^ k)
    by (apply scale_between; lia).
  assert (HPS : 1 * 2 ^ k <= PA + PL <= (2 ^ 47 - 1) * 2 ^ k).
  { replace (PA + PL) with ((pos + l) * 2 ^ k) by (subst PA PL; ring).
    apply scale_between; lia. }
  change (2 ^ 47) with 140737488355328 in *.
  change (2 ^ 52) with 4503599627370496 in *.
  change (2 ^ 100) with 1267650600228229401496703205376 in *.
  assert (Hbc : 2 ^ (k - 100) <= Vc < 2 ^ (k + 100)) by lia.
  pose proof (value_mul_1000 k ltac:(lia) (seconds pos + seconds l)%float Hbc) as Hp.
  apply (round_of_value k ltac:(lia));
    [change (2 ^ 48) with 281474976710656; lia|].
  set (P := scaled_by k (Prim2SF ((seconds pos + seconds l) * Py.float_of_int 1000))) in *.
  replace ((pos + l) * 2 ^ k) with (PA + PL) by (subst PA PL; ring).
  lia.
Qed.

(** The two stamps of a placed segment. *)
Lemma format_timestamp_of_cursor (pos l : Z) :
  0 <= pos -> 0 <= l -> pos + l < 2 ^ 47 ->
  format_timestamp (seconds pos) = Some (format_millis pos)
  /\ format_timestamp (seconds pos + seconds l)%float = Some (format_millis (pos + l)).
Proof.
  intros Hpos Hl Hsum. unfold format_timestamp.
  rewrite round_of_seconds by lia. by rewrite round_of_seconds_sum by lia.
Qed.

(** X18. In the subtitles written with the achieved timing, the timing line of
    every sequenced segment carries the position of the cursor before its
    clip and the position after it, in whole milliseconds: the float
    arithmetic in seconds loses nothing, and the end written for a segment
    is the start written for the next one. This holds for tracks shorter
    than [2^47] ms. *)
Theorem achieved_times_are_written_to_the_millisecond {A : Type} `{AudioLaws A}
    (pieces : list (SubtitleSegment * A)) (out : Assembled)
    (i : nat) (seg : SubtitleSegment) :
  arrange pieces = Some out ->
  final_pos_ms out < 2 ^ 47 ->
  sequenced out !! i = Some seg ->
  timing_line true seg
  = Some (arrow (format_millis (cursor_ms (clips out) i))
                (format_millis (cursor_ms (clips out) (S i)))).
Proof.
  unfold arrange. intros Hrun Hlen Hi.
  destruct (arrange_loop _ 0 []) as [[[segs pos] audio]|] eqn:El; [|done].
  cbn in Hrun. injection Hrun as <-. cbn [sequenced clips final_pos_ms] in *.
  destruct (arrange_loop_spec _ _ _ _ _ _ El) as (adj & HF & -> & -> & ->).
  cbn [app] in *. rewrite Z.add_0_l in Hlen.
  destruct (placed_lookup _ _ _ _ _ Hi) as (seg0 & a & _ & Ha & ->).
  rewrite Z.add_0_l.
  rewrite (cursor_ms_step adj i a Ha).
  assert (0 <= cursor_ms adj i) by apply total_ms_nonneg.
  pose proof (len_nonneg a).
  assert (cursor_ms adj i + len a <= total_ms adj).
  { rewrite <- (cursor_ms_step adj i a Ha). unfold cursor_ms.
    rewrite <- (take_drop (S i) adj) at 2. rewrite total_ms_app.
    pose proof (total_ms_nonneg (drop (S i) adj)). lia. }
  destruct (format_timestamp_of_cursor (cursor_ms adj i) (len a)) as [E1 E2]; [lia..|].
  unfold timing_line. cbn [set_actual actual_start actual_end].
  by rewrite E1, E2.
Qed.

Lemma achieved_times_are_written_to_the_millisecond_witness :
  exists out second,
    arrange tenths_pieces = Some out
    /\ sequenced out !! 1%nat = Some second
    /\ timing_line true second
       = Some (arrow (format_millis (cursor_ms (clips out) 1))
                     (format_millis (cursor_ms (clips out) 2))).
Proof.
  eexists _, _. split; [vm_compute; reflexivity|].
  split; [vm_compute; reflexivity|].
  apply (achieved_times_are_written_to_the_millisecond tenths_pieces);
    vm_compute; reflexivity.
Defined.

(** ** src/pipeline.py: the two subtitle files of a run *)





Section Run.
Context {A : Type} `{AudioOps A}.


End Run.

